(** * SM2 P-256: field arithmetic and point operations of the optimised curve

    A shallow embedding of the Go implementation (package [sm2], the file
    holding [sm2P256Curve]).  Machine integers are integers of [Z] with the
    wrap-around of every operation written out, fixed-size arrays are
    records with one field per cell, [big.Int] values are integers of [Z]. *)

From Stdlib Require Import ZArith List Lia Bool.
Import ListNotations.
Local Open Scope Z_scope.

(** ** Machine words *)

Definition u32 (x : Z) : Z := x mod 2 ^ 32.
Definition u64 (x : Z) : Z := x mod 2 ^ 64.

Definition add32 (x y : Z) : Z := u32 (x + y).
Definition sub32 (x y : Z) : Z := u32 (x - y).
Definition add64 (x y : Z) : Z := u64 (x + y).
Definition sub64 (x y : Z) : Z := u64 (x - y).
Definition mul64 (x y : Z) : Z := u64 (x * y).
Definition shl64 (x n : Z) : Z := u64 (Z.shiftl x n).

(** ** Constants of the source *)

Definition bottom28BitsMask : Z := 0xFFFFFFF.
Definition bottom29BitsMask : Z := 0x1FFFFFFF.
Definition bottom32BitsMask : Z := 0xFFFFFFFF.
Definition bottom57BitsMask : Z := 0x1FFFFFFFFFFFFFF.
Definition twoPower57 : Z := 0x200000000000000.

(** Curve parameters set by [initP256Sm2]. *)
Definition sm2P256_A : Z :=
  0xFFFFFFFEFFFFFFFFFFFFFFFFFFFFFFFFFFFFFFFF00000000FFFFFFFFFFFFFFFC.
Definition sm2P256_P : Z :=
  0xFFFFFFFEFFFFFFFFFFFFFFFFFFFFFFFFFFFFFFFF00000000FFFFFFFFFFFFFFFF.
Definition sm2P256_N : Z :=
  0xFFFFFFFEFFFFFFFFFFFFFFFFFFFFFFFF7203DF6B21C6052B53BBF40939D54123.
Definition sm2P256_B : Z :=
  0x28E9FA9E9D9F5E344D5A9E4BCF6509A7F39789F515AB8F92DDBCBD414D940E93.
Definition sm2P256_Gx : Z :=
  0x32C4AE2C1F1981195F9904466A39C9948FE30BBFF2660BE1715A4589334C74C7.
Definition sm2P256_Gy : Z :=
  0xBC3736A2F4F6779C59BDCEE36B692153D0A9877CC62A474002DF32E52139F0A0.
Definition sm2P256_RInverse : Z :=
  0x7ffffffd80000002fffffffe000000017ffffffe800000037ffffffc80000002.

(** ** Field elements: [[9]uint32] and [[17]uint64] *)

Record sm2P256FieldElement : Set := FE {
  fe0 : Z; fe1 : Z; fe2 : Z; fe3 : Z; fe4 : Z;
  fe5 : Z; fe6 : Z; fe7 : Z; fe8 : Z
}.

Record sm2P256LargeFieldElement : Set := LFE {
  lf0 : Z; lf1 : Z; lf2 : Z; lf3 : Z; lf4 : Z; lf5 : Z; lf6 : Z; lf7 : Z;
  lf8 : Z; lf9 : Z; lf10 : Z; lf11 : Z; lf12 : Z; lf13 : Z; lf14 : Z;
  lf15 : Z; lf16 : Z
}.

(** The [[10]uint64] buffer of the reduction. *)
Record tmp64 : Set := T64 {
  t0 : Z; t1 : Z; t2 : Z; t3 : Z; t4 : Z;
  t5 : Z; t6 : Z; t7 : Z; t8 : Z; t9 : Z
}.

Definition fe_zero : sm2P256FieldElement := FE 0 0 0 0 0 0 0 0 0.

Definition fe_to_list (a : sm2P256FieldElement) : list Z :=
  [fe0 a; fe1 a; fe2 a; fe3 a; fe4 a; fe5 a; fe6 a; fe7 a; fe8 a].

Definition fe_of_list (l : list Z) : sm2P256FieldElement :=
  FE (nth 0 l 0) (nth 1 l 0) (nth 2 l 0) (nth 3 l 0) (nth 4 l 0)
     (nth 5 l 0) (nth 6 l 0) (nth 7 l 0) (nth 8 l 0).

(** ** Conversion between [big.Int] and the 9-limb form *)

Definition getBottomNBitsMask (n : Z) : Z :=
  if n =? 28 then bottom28BitsMask
  else if n =? 29 then bottom29BitsMask
  else 0.

(** [x.Bits()] is the little-endian word slice of the magnitude of [x]; its
    first word, cut to [uint32], is masked.  An empty slice (x = 0) gives 0,
    which the same expression yields. *)
Definition getBottomNBits (x : Z) (n : Z) : Z :=
  Z.land (u32 (u64 (Z.abs x))) (getBottomNBitsMask n).

Definition getBottom29Bits (x : Z) : Z := getBottomNBits x 29.
Definition getBottom28Bits (x : Z) : Z := getBottomNBits x 28.

(** The loop of [sm2P256FromBigPlain] runs for i = 1, 3, 5, 7. *)
Definition sm2P256FromBigPlain (x : Z) : sm2P256FieldElement :=
  let X0 := getBottom29Bits x in let x := Z.shiftr x 29 in
  let X1 := getBottom28Bits x in let x := Z.shiftr x 28 in
  let X2 := getBottom29Bits x in let x := Z.shiftr x 29 in
  let X3 := getBottom28Bits x in let x := Z.shiftr x 28 in
  let X4 := getBottom29Bits x in let x := Z.shiftr x 29 in
  let X5 := getBottom28Bits x in let x := Z.shiftr x 28 in
  let X6 := getBottom29Bits x in let x := Z.shiftr x 29 in
  let X7 := getBottom28Bits x in let x := Z.shiftr x 28 in
  let X8 := getBottom29Bits x in
  FE X0 X1 X2 X3 X4 X5 X6 X7 X8.

(** X = a * R mod P (R = 2**257) *)
Definition sm2P256FromBig (a : Z) : sm2P256FieldElement :=
  let x := Z.shiftl a 257 in
  let x := x mod sm2P256_P in
  sm2P256FromBigPlain x.

(** The loop of [sm2P256ToBigPlain] runs for i = 7, 5, 3, 1. *)
Definition sm2P256ToBigPlain (X : sm2P256FieldElement) : Z :=
  let r := fe8 X in
  let r := Z.shiftl r 28 + fe7 X in
  let r := Z.shiftl r 29 + fe6 X in
  let r := Z.shiftl r 28 + fe5 X in
  let r := Z.shiftl r 29 + fe4 X in
  let r := Z.shiftl r 28 + fe3 X in
  let r := Z.shiftl r 29 + fe2 X in
  let r := Z.shiftl r 28 + fe1 X in
  let r := Z.shiftl r 29 + fe0 X in
  r.

Definition sm2P256ToBig (X : sm2P256FieldElement) : Z :=
  let r := sm2P256ToBigPlain X in
  let r := r * sm2P256_RInverse in
  r mod sm2P256_P.


(** ** Tables of the source *)

(** Read of cell [i] of an array or slice.  Go panics on an index out of
    range; every use below is with an index in range (see
    [sm2P256Carry_index_in_range] for the carry table). *)
Definition cell (l : list Z) (i : Z) : Z := nth (Z.to_nat i) l 0.

(** The array has 9 * 2 * 16 * 2 = 576 cells; the literal of the source
    gives the first 558, the remaining 18 are zero. *)
Definition sm2P256Precomputed : list Z :=
  [
   0; 0; 0; 0; 0; 0; 0; 0; 0;
   0; 0; 0; 0; 0; 0; 0; 0; 0;
   0x830053d; 0x328990f; 0x6c04fe1; 0xc0f72e5; 0x1e19f3c; 0x666b093; 0x175a87b; 0xec38276; 0x222cf4b;
   0x185a1bba; 0x354e593; 0x1295fac1; 0xf2bc469; 0x47c60fa; 0xc19b8a9; 0xf63533e; 0x903ae6b; 0xc79acba;
   0x15b061a4; 0x33e020b; 0xdffb34b; 0xfcf2c8; 0x16582e08; 0x262f203; 0xfb34381; 0xa55452; 0x604f0ff;
   0x41f1f90; 0xd64ced2; 0xee377bf; 0x75f05f0; 0x189467ae; 0xe2244e; 0x1e7700e8; 0x3fbc464; 0x9612d2e;
   0x1341b3b8; 0xee84e23; 0x1edfa5b4; 0x14e6030; 0x19e87be9; 0x92f533c; 0x1665d96c; 0x226653e; 0xa238d3e;
   0xf5c62c; 0x95bb7a; 0x1f0e5a41; 0x28789c3; 0x1f251d23; 0x8726609; 0xe918910; 0x8096848; 0xf63d028;
   0x152296a1; 0x9f561a8; 0x14d376fb; 0x898788a; 0x61a95fb; 0xa59466d; 0x159a003d; 0x1ad1698; 0x93cca08;
   0x1b314662; 0x706e006; 0x11ce1e30; 0x97b710; 0x172fbc0d; 0x8f50158; 0x11c7ffe7; 0xd182cce; 0xc6ad9e8;
   0x12ea31b2; 0xc4e4f38; 0x175b0d96; 0xec06337; 0x75a9c12; 0xb001fdf; 0x93e82f5; 0x34607de; 0xb8035ed;
   0x17f97924; 0x75cf9e6; 0xdceaedd; 0x2529924; 0x1a10c5ff; 0xb1a54dc; 0x19464d8; 0x2d1997; 0xde6a110;
   0x1e276ee5; 0x95c510c; 0x1aca7c7a; 0xfe48aca; 0x121ad4d9; 0xe4132c6; 0x8239b9d; 0x40ea9cd; 0x816c7b;
   0x632d7a4; 0xa679813; 0x5911fcf; 0x82b0f7c; 0x57b0ad5; 0xbef65; 0xd541365; 0x7f9921f; 0xc62e7a;
   0x3f4b32d; 0x58e50e1; 0x6427aed; 0xdcdda67; 0xe8c2d3e; 0x6aa54a4; 0x18df4c35; 0x49a6a8e; 0x3cd3d0c;
   0xd7adf2; 0xcbca97; 0x1bda5f2d; 0x3258579; 0x606b1e6; 0x6fc1b5b; 0x1ac27317; 0x503ca16; 0xa677435;
   0x57bc73; 0x3992a42; 0xbab987b; 0xfab25eb; 0x128912a4; 0x90a1dc4; 0x1402d591; 0x9ffbcfc; 0xaa48856;
   0x7a7c2dc; 0xcefd08a; 0x1b29bda6; 0xa785641; 0x16462d8c; 0x76241b7; 0x79b6c3b; 0x204ae18; 0xf41212b;
   0x1f567a4d; 0xd6ce6db; 0xedf1784; 0x111df34; 0x85d7955; 0x55fc189; 0x1b7ae265; 0xf9281ac; 0xded7740;
   0xf19468b; 0x83763bb; 0x8ff7234; 0x3da7df8; 0x9590ac3; 0xdc96f2a; 0x16e44896; 0x7931009; 0x99d5acc;
   0x10f7b842; 0xaef5e84; 0xc0310d7; 0xdebac2c; 0x2a7b137; 0x4342344; 0x19633649; 0x3a10624; 0x4b4cb56;
   0x1d809c59; 0xac007f; 0x1f0f4bcd; 0xa1ab06e; 0xc5042cf; 0x82c0c77; 0x76c7563; 0x22c30f3; 0x3bf1568;
   0x7a895be; 0xfcca554; 0x12e90e4c; 0x7b4ab5f; 0x13aeb76b; 0x5887e2c; 0x1d7fe1e3; 0x908c8e3; 0x95800ee;
   0xb36bd54; 0xf08905d; 0x4e73ae8; 0xf5a7e48; 0xa67cb0; 0x50e1067; 0x1b944a0a; 0xf29c83a; 0xb23cfb9;
   0xbe1db1; 0x54de6e8; 0xd4707f2; 0x8ebcc2d; 0x2c77056; 0x1568ce4; 0x15fcc849; 0x4069712; 0xe2ed85f;
   0x2c5ff09; 0x42a6929; 0x628e7ea; 0xbd5b355; 0xaf0bd79; 0xaa03699; 0xdb99816; 0x4379cef; 0x81d57b;
   0x11237f01; 0xe2a820b; 0xfd53b95; 0x6beb5ee; 0x1aeb790c; 0xe470d53; 0x2c2cfee; 0x1c1d8d8; 0xa520fc4;
   0x1518e034; 0xa584dd4; 0x29e572b; 0xd4594fc; 0x141a8f6f; 0x8dfccf3; 0x5d20ba3; 0x2eb60c3; 0x9f16eb0;
   0x11cec356; 0xf039f84; 0x1b0990c1; 0xc91e526; 0x10b65bae; 0xf0616e8; 0x173fa3ff; 0xec8ccf9; 0xbe32790;
   0x11da3e79; 0xe2f35c7; 0x908875c; 0xdacf7bd; 0x538c165; 0x8d1487f; 0x7c31aed; 0x21af228; 0x7e1689d;
   0xdfc23ca; 0x24f15dc; 0x25ef3c4; 0x35248cd; 0x99a0f43; 0xa4b6ecc; 0xd066b3; 0x2481152; 0x37a7688;
   0x15a444b6; 0xb62300c; 0x4b841b; 0xa655e79; 0xd53226d; 0xbeb348a; 0x127f3c2; 0xb989247; 0x71a277d;
   0x19e9dfcb; 0xb8f92d0; 0xe2d226c; 0x390a8b0; 0x183cc462; 0x7bd8167; 0x1f32a552; 0x5e02db4; 0xa146ee9;
   0x1a003957; 0x1c95f61; 0x1eeec155; 0x26f811f; 0xf9596ba; 0x3082bfb; 0x96df083; 0x3e3a289; 0x7e2d8be;
   0x157a63e0; 0x99b8941; 0x1da7d345; 0xcc6cd0; 0x10beed9a; 0x48e83c0; 0x13aa2e25; 0x7cad710; 0x4029988;
   0x13dfa9dd; 0xb94f884; 0x1f4adfef; 0xb88543; 0x16f5f8dc; 0xa6a67f4; 0x14e274e2; 0x5e56cf4; 0x2f24ef;
   0x1e9ef967; 0xfe09bad; 0xfe079b3; 0xcc0ae9e; 0xb3edf6d; 0x3e961bc; 0x130d7831; 0x31043d6; 0xba986f9;
   0x1d28055; 0x65240ca; 0x4971fa3; 0x81b17f8; 0x11ec34a5; 0x8366ddc; 0x1471809; 0xfa5f1c6; 0xc911e15;
   0x8849491; 0xcf4c2e2; 0x14471b91; 0x39f75be; 0x445c21e; 0xf1585e9; 0x72cc11f; 0x4c79f0c; 0xe5522e1;
   0x1874c1ee; 0x4444211; 0x7914884; 0x3d1b133; 0x25ba3c; 0x4194f65; 0x1c0457ef; 0xac4899d; 0xe1fa66c;
   0x130a7918; 0x9b8d312; 0x4b1c5c8; 0x61ccac3; 0x18c8aa6f; 0xe93cb0a; 0xdccb12c; 0xde10825; 0x969737d;
   0xf58c0c3; 0x7cee6a9; 0xc2c329a; 0xc7f9ed9; 0x107b3981; 0x696a40e; 0x152847ff; 0x4d88754; 0xb141f47;
   0x5a16ffe; 0x3a7870a; 0x18667659; 0x3b72b03; 0xb1c9435; 0x9285394; 0xa00005a; 0x37506c; 0x2edc0bb;
   0x19afe392; 0xeb39cac; 0x177ef286; 0xdf87197; 0x19f844ed; 0x31fe8; 0x15f9bfd; 0x80dbec; 0x342e96e;
   0x497aced; 0xe88e909; 0x1f5fa9ba; 0x530a6ee; 0x1ef4e3f1; 0x69ffd12; 0x583006d; 0x2ecc9b1; 0x362db70;
   0x18c7bdc5; 0xf4bb3c5; 0x1c90b957; 0xf067c09; 0x9768f2b; 0xf73566a; 0x1939a900; 0x198c38a; 0x202a2a1;
   0x4bbf5a6; 0x4e265bc; 0x1f44b6e7; 0x185ca49; 0xa39e81b; 0x24aff5b; 0x4acc9c2; 0x638bdd3; 0xb65b2a8;
   0x6def8be; 0xb94537a; 0x10b81dee; 0xe00ec55; 0x2f2cdf7; 0xc20622d; 0x2d20f36; 0xe03c8c9; 0x898ea76;
   0x8e3921b; 0x8905bff; 0x1e94b6c8; 0xee7ad86; 0x154797f2; 0xa620863; 0x3fbd0d9; 0x1f3caab; 0x30c24bd;
   0x19d3892f; 0x59c17a2; 0x1ab4b0ae; 0xf8714ee; 0x90c4098; 0xa9c800d; 0x1910236b; 0xea808d3; 0x9ae2f31;
   0x1a15ad64; 0xa48c8d1; 0x184635a4; 0xb725ef1; 0x11921dcc; 0x3f866df; 0x16c27568; 0xbdf580a; 0xb08f55c;
   0x186ee1c; 0xb1627fa; 0x34e82f6; 0x933837e; 0xf311be5; 0xfedb03b; 0x167f72cd; 0xa5469c0; 0x9c82531;
   0xb92a24b; 0x14fdc8b; 0x141980d1; 0xbdc3a49; 0x7e02bb1; 0xaf4e6dd; 0x106d99e1; 0xd4616fc; 0x93c2717;
   0x1c0a0507; 0xc6d5fed; 0x9a03d8b; 0xa1d22b0; 0x127853e3; 0xc4ac6b8; 0x1a048cf7; 0x9afb72c; 0x65d485d;
   0x72d5998; 0xe9fa744; 0xe49e82c; 0x253cf80; 0x5f777ce; 0xa3799a5; 0x17270cbb; 0xc1d1ef0; 0xdf74977;
   0x114cb859; 0xfa8e037; 0xb8f3fe5; 0xc734cc6; 0x70d3d61; 0xeadac62; 0x12093dd0; 0x9add67d; 0x87200d6;
   0x175bcbb; 0xb29b49f; 0x1806b79c; 0x12fb61f; 0x170b3a10; 0x3aaf1cf; 0xa224085; 0x79d26af; 0x97759e2;
   0x92e19f1; 0xb32714d; 0x1f00d9f1; 0xc728619; 0x9e6f627; 0xe745e24; 0x18ea4ace; 0xfc60a41; 0x125f5b2;
   0xc3cf512; 0x39ed486; 0xf4d15fa; 0xf9167fd; 0x1c1f5dd5; 0xc21a53e; 0x1897930; 0x957a112; 0x21059a0;
   0x1f9e3ddc; 0xa4dfced; 0x8427f6f; 0x726fbe7; 0x1ea658f8; 0x2fdcd4c; 0x17e9b66f; 0xb2e7c2e; 0x39923bf;
   0x1bae104; 0x3973ce5; 0xc6f264c; 0x3511b84; 0x124195d7; 0x11996bd; 0x20be23d; 0xdc437c4; 0x4b4f16b;
   0x11902a0; 0x6c29cc9; 0x1d5ffbe6; 0xdb0b4c7; 0x10144c14; 0x2f2b719; 0x301189; 0x2343336; 0xa0bf2ac
  ] ++ repeat 0 18.

Definition sm2P256Factor : list sm2P256FieldElement :=
  [ FE 0x0 0x0 0x0 0x0 0x0 0x0 0x0 0x0 0x0;
    FE 0x2 0x0 0x1FFFFF00 0x7FF 0x0 0x0 0x0 0x2000000 0x0;
    FE 0x4 0x0 0x1FFFFE00 0xFFF 0x0 0x0 0x0 0x4000000 0x0;
    FE 0x6 0x0 0x1FFFFD00 0x17FF 0x0 0x0 0x0 0x6000000 0x0;
    FE 0x8 0x0 0x1FFFFC00 0x1FFF 0x0 0x0 0x0 0x8000000 0x0;
    FE 0xA 0x0 0x1FFFFB00 0x27FF 0x0 0x0 0x0 0xA000000 0x0;
    FE 0xC 0x0 0x1FFFFA00 0x2FFF 0x0 0x0 0x0 0xC000000 0x0;
    FE 0xE 0x0 0x1FFFF900 0x37FF 0x0 0x0 0x0 0xE000000 0x0;
    FE 0x10 0x0 0x1FFFF800 0x3FFF 0x0 0x0 0x0 0x0 0x01 ].

(** [sm2P256Factor[1]], the field element of 1 in Montgomery form. *)
Definition sm2P256Factor_1 : sm2P256FieldElement := nth 1 sm2P256Factor fe_zero.

(** p256Zero31 is 0 mod p. *)
Definition sm2P256Zero31 : sm2P256FieldElement :=
  FE 0x7FFFFFF8 0x3FFFFFFC 0x800003FC 0x3FFFDFFC 0x7FFFFFFC 0x3FFFFFFC
     0x7FFFFFFC 0x37FFFFFC 0x7FFFFFFC.

Definition sm2P256Carry : list Z :=
  [ 0x0; 0x0; 0x0; 0x0; 0x0; 0x0; 0x0; 0x0; 0x0;
    0x2; 0x0; 0x1FFFFF00; 0x7FF; 0x0; 0x0; 0x0; 0x2000000; 0x0;
    0x4; 0x0; 0x1FFFFE00; 0xFFF; 0x0; 0x0; 0x0; 0x4000000; 0x0;
    0x6; 0x0; 0x1FFFFD00; 0x17FF; 0x0; 0x0; 0x0; 0x6000000; 0x0;
    0x8; 0x0; 0x1FFFFC00; 0x1FFF; 0x0; 0x0; 0x0; 0x8000000; 0x0;
    0xA; 0x0; 0x1FFFFB00; 0x27FF; 0x0; 0x0; 0x0; 0xA000000; 0x0;
    0xC; 0x0; 0x1FFFFA00; 0x2FFF; 0x0; 0x0; 0x0; 0xC000000; 0x0;
    0xE; 0x0; 0x1FFFF900; 0x37FF; 0x0; 0x0; 0x0; 0xE000000; 0x0 ].

(** The sentinel [pv] local to [sm2P256PointAdd]. *)
Definition pv : list Z :=
  [ 0x1ffffffe; 0xfffffff; 0x200000ff; 0xffff7ff; 0x1fffffff; 0xfffffff;
    0x1fffffff; 0xdffffff; 0x1fffffff ].

(** ** Field addition and subtraction *)

(** carry < 2 ^ 3 *)
Definition sm2P256ReduceCarry (a : sm2P256FieldElement) (carry : Z)
  : sm2P256FieldElement :=
  let a0 := add32 (fe0 a) (cell sm2P256Carry (carry * 9 + 0)) in
  let a2 := add32 (fe2 a) (cell sm2P256Carry (carry * 9 + 2)) in
  let a3 := add32 (fe3 a) (cell sm2P256Carry (carry * 9 + 3)) in
  let a7 := add32 (fe7 a) (cell sm2P256Carry (carry * 9 + 7)) in
  FE a0 (fe1 a) a2 a3 (fe4 a) (fe5 a) (fe6 a) a7 (fe8 a).

(** One limb of [sm2P256Add] on a 29-bit cell:
    c[i] = a[i] + b[i]; c[i] += carry; carry = c[i] >> 29; c[i] &= mask. *)
Definition addLimb29 (x y carry : Z) : Z * Z :=
  let c := add32 x y in
  let c := add32 c carry in
  (Z.land c bottom29BitsMask, Z.shiftr c 29).

(** The same on a 28-bit cell. *)
Definition addLimb28 (x y carry : Z) : Z * Z :=
  let c := add32 x y in
  let c := add32 c carry in
  (Z.land c bottom28BitsMask, Z.shiftr c 28).

Definition sm2P256Add (a b : sm2P256FieldElement) : sm2P256FieldElement :=
  let carry := 0 in
  let '(c0, carry) := addLimb29 (fe0 a) (fe0 b) carry in
  let '(c1, carry) := addLimb28 (fe1 a) (fe1 b) carry in
  let '(c2, carry) := addLimb29 (fe2 a) (fe2 b) carry in
  let '(c3, carry) := addLimb28 (fe3 a) (fe3 b) carry in
  let '(c4, carry) := addLimb29 (fe4 a) (fe4 b) carry in
  let '(c5, carry) := addLimb28 (fe5 a) (fe5 b) carry in
  let '(c6, carry) := addLimb29 (fe6 a) (fe6 b) carry in
  let '(c7, carry) := addLimb28 (fe7 a) (fe7 b) carry in
  let '(c8, carry) := addLimb29 (fe8 a) (fe8 b) carry in
  sm2P256ReduceCarry (FE c0 c1 c2 c3 c4 c5 c6 c7 c8) carry.

(** One limb of [sm2P256Sub] on a 29-bit cell:
    c[i] = a[i] - b[i]; c[i] += sm2P256Zero31[i]; c[i] += carry;
    carry = c[i] >> 29; c[i] &= mask. *)
Definition subLimb29 (x y z31 carry : Z) : Z * Z :=
  let c := sub32 x y in
  let c := add32 c z31 in
  let c := add32 c carry in
  (Z.land c bottom29BitsMask, Z.shiftr c 29).

Definition subLimb28 (x y z31 carry : Z) : Z * Z :=
  let c := sub32 x y in
  let c := add32 c z31 in
  let c := add32 c carry in
  (Z.land c bottom28BitsMask, Z.shiftr c 28).

(** c = a - b *)
Definition sm2P256Sub (a b : sm2P256FieldElement) : sm2P256FieldElement :=
  let carry := 0 in
  let '(c0, carry) := subLimb29 (fe0 a) (fe0 b) (fe0 sm2P256Zero31) carry in
  let '(c1, carry) := subLimb28 (fe1 a) (fe1 b) (fe1 sm2P256Zero31) carry in
  let '(c2, carry) := subLimb29 (fe2 a) (fe2 b) (fe2 sm2P256Zero31) carry in
  let '(c3, carry) := subLimb28 (fe3 a) (fe3 b) (fe3 sm2P256Zero31) carry in
  let '(c4, carry) := subLimb29 (fe4 a) (fe4 b) (fe4 sm2P256Zero31) carry in
  let '(c5, carry) := subLimb28 (fe5 a) (fe5 b) (fe5 sm2P256Zero31) carry in
  let '(c6, carry) := subLimb29 (fe6 a) (fe6 b) (fe6 sm2P256Zero31) carry in
  let '(c7, carry) := subLimb28 (fe7 a) (fe7 b) (fe7 sm2P256Zero31) carry in
  let '(c8, carry) := subLimb29 (fe8 a) (fe8 b) (fe8 sm2P256Zero31) carry in
  sm2P256ReduceCarry (FE c0 c1 c2 c3 c4 c5 c6 c7 c8) carry.

(** ** Reduction of a wide element *)

(** First cell of [sm2P256FromLargeElement]. *)
Definition packFirst (b0 b1 : Z) : Z * Z :=
  let a := b0 in
  let a := add64 a (Z.land (shl64 b1 29) bottom57BitsMask) in
  (Z.land a bottom57BitsMask, Z.shiftr a 57).

(** Cells 1 to 7 of [sm2P256FromLargeElement]:
    a[i] = carry; a[i] += b[2i-1] >> 28; a[i] += b[2i];
    a[i] += (b[2i+1] << 29) & bottom57BitsMask;
    carry = a[i] >> 57; a[i] = a[i] & bottom57BitsMask. *)
Definition packLimb (carry bprev beven bodd : Z) : Z * Z :=
  let a := carry in
  let a := add64 a (Z.shiftr bprev 28) in
  let a := add64 a beven in
  let a := add64 a (Z.land (shl64 bodd 29) bottom57BitsMask) in
  (Z.land a bottom57BitsMask, Z.shiftr a 57).

Definition sm2P256FromLargeElement (b : sm2P256LargeFieldElement) : tmp64 :=
  let '(a0, carry) := packFirst (lf0 b) (lf1 b) in
  let '(a1, carry) := packLimb carry (lf1 b) (lf2 b) (lf3 b) in
  let '(a2, carry) := packLimb carry (lf3 b) (lf4 b) (lf5 b) in
  let '(a3, carry) := packLimb carry (lf5 b) (lf6 b) (lf7 b) in
  let '(a4, carry) := packLimb carry (lf7 b) (lf8 b) (lf9 b) in
  let '(a5, carry) := packLimb carry (lf9 b) (lf10 b) (lf11 b) in
  let '(a6, carry) := packLimb carry (lf11 b) (lf12 b) (lf13 b) in
  let '(a7, carry) := packLimb carry (lf13 b) (lf14 b) (lf15 b) in
  let a8 := carry in
  let a8 := add64 a8 (Z.shiftr (lf15 b) 28) in
  let a8 := add64 a8 (lf16 b) in
  let a9 := 0 in
  T64 a0 a1 a2 a3 a4 a5 a6 a7 a8 a9.

(** The block guarded by [if x64 > 0] in [sm2P256ReduceDegree], on the
    cells tmp64[j1], ..., tmp64[j5]. *)
Definition reduceRound (x64 : Z) (t : Z * Z * Z * Z * Z) : Z * Z * Z * Z * Z :=
  let '(tj1, tj2, tj3, tj4, tj5) := t in
  let tj1 := add64 tj1 (Z.land (shl64 x64 7) bottom57BitsMask) in
  let tj2 := add64 tj2 (Z.shiftr x64 50) in
  let tj1 := add64 tj1 twoPower57 in
  let tj2 := add64 tj2 bottom57BitsMask in
  let tj1 := sub64 tj1 (Z.land (shl64 x64 39) bottom57BitsMask) in
  let tj2 := sub64 tj2 (Z.shiftr x64 18) in
  let tj3 := add64 tj3 bottom57BitsMask in
  let tj4 := add64 tj4 bottom57BitsMask in
  let tj3 := sub64 tj3 (Z.land (shl64 x64 53) bottom57BitsMask) in
  let tj4 := sub64 tj4 (Z.land (Z.shiftr x64 4) bottom57BitsMask) in
  let tj5 := sub64 tj5 1 in
  let tj4 := add64 tj4 (Z.land (shl64 x64 28) bottom57BitsMask) in
  let tj5 := add64 tj5 (Z.land (Z.shiftr x64 29) bottom29BitsMask) in
  (tj1, tj2, tj3, tj4, tj5).

Definition reduceGuard (x64 : Z) (t : Z * Z * Z * Z * Z) : Z * Z * Z * Z * Z :=
  if 0 <? x64 then reduceRound x64 t else t.

(** First cell of [sm2P256DivideByR]. *)
Definition divFirst (t4 t5 : Z) : Z * Z :=
  let a := u32 (Z.shiftr t4 29) in
  let a := add32 a (Z.land (u32 (shl64 t5 28)) bottom29BitsMask) in
  (Z.land a bottom29BitsMask, Z.shiftr a 29).

(** An odd cell of [sm2P256DivideByR]:
    a[i] = uint32(tmp[k]>>1) & bottom28BitsMask; a[i] += carry;
    carry = a[i] >> 28; a[i] &= bottom28BitsMask. *)
Definition divOdd (tk carry : Z) : Z * Z :=
  let a := Z.land (u32 (Z.shiftr tk 1)) bottom28BitsMask in
  let a := add32 a carry in
  (Z.land a bottom28BitsMask, Z.shiftr a 28).

(** An even cell of [sm2P256DivideByR]:
    a[i] = uint32(tmp[k] >> 29); a[i] += carry;
    a[i] += uint32(tmp[k+1]<<28) & bottom29BitsMask;
    carry = a[i] >> 29; a[i] &= bottom29BitsMask. *)
Definition divEven (tk tk1 carry : Z) : Z * Z :=
  let a := u32 (Z.shiftr tk 29) in
  let a := add32 a carry in
  let a := add32 a (Z.land (u32 (shl64 tk1 28)) bottom29BitsMask) in
  (Z.land a bottom29BitsMask, Z.shiftr a 29).

Definition sm2P256DivideByR (tmp : tmp64) : sm2P256FieldElement * Z :=
  let '(a0, carry) := divFirst (t4 tmp) (t5 tmp) in
  let '(a1, carry) := divOdd (t5 tmp) carry in
  let '(a2, carry) := divEven (t5 tmp) (t6 tmp) carry in
  let '(a3, carry) := divOdd (t6 tmp) carry in
  let '(a4, carry) := divEven (t6 tmp) (t7 tmp) carry in
  let '(a5, carry) := divOdd (t7 tmp) carry in
  let '(a6, carry) := divEven (t7 tmp) (t8 tmp) carry in
  let '(a7, carry) := divOdd (t8 tmp) carry in
  let '(a8, carry) := divEven (t8 tmp) (t9 tmp) carry in
  (FE a0 a1 a2 a3 a4 a5 a6 a7 a8, carry).

(** The five rounds of [sm2P256ReduceDegree] and its final fix of
    tmp64[9], up to the call of [sm2P256DivideByR]. *)
Definition reduceRounds (tmp : tmp64) : tmp64 :=
  let '(T64 t0 t1 t2 t3 t4 t5 t6 t7 t8 t9) := tmp in
  (* j = 0 *)
  let t1 := add64 t1 (Z.shiftr t0 57) in
  let x64 := Z.land t0 bottom57BitsMask in
  let '(t1, t2, t3, t4, t5) := reduceGuard x64 (t1, t2, t3, t4, t5) in
  (* j = 1 *)
  let t2 := add64 t2 (Z.shiftr t1 57) in
  let x64 := Z.land t1 bottom57BitsMask in
  let '(t2, t3, t4, t5, t6) := reduceGuard x64 (t2, t3, t4, t5, t6) in
  (* j = 2 *)
  let t3 := add64 t3 (Z.shiftr t2 57) in
  let x64 := Z.land t2 bottom57BitsMask in
  let '(t3, t4, t5, t6, t7) := reduceGuard x64 (t3, t4, t5, t6, t7) in
  (* j = 3 *)
  let t4 := add64 t4 (Z.shiftr t3 57) in
  let x64 := Z.land t3 bottom57BitsMask in
  let '(t4, t5, t6, t7, t8) := reduceGuard x64 (t4, t5, t6, t7, t8) in
  (* j = 4 *)
  let x64 := Z.land t4 bottom29BitsMask in
  let t4 := shl64 (Z.shiftr t4 29) 29 in
  let '(t5, t6, t7, t8, t9) := reduceGuard x64 (t5, t6, t7, t8, t9) in
  let '(t8, t9) :=
    if add64 t9 1 =? 0 then (sub64 t8 twoPower57, 0) else (t8, t9) in
  T64 t0 t1 t2 t3 t4 t5 t6 t7 t8 t9.

(** (b + (b*pprime mod r) * p) / r *)
Definition sm2P256ReduceDegree (b : sm2P256LargeFieldElement)
  : sm2P256FieldElement :=
  let tmp64 := sm2P256FromLargeElement b in
  let tmp64 := reduceRounds tmp64 in
  let '(a, carry) := sm2P256DivideByR tmp64 in
  sm2P256ReduceCarry a carry.

(** ** Field multiplication and squaring *)

(** The 17 cells [tmp] that [sm2P256Mul] hands to [sm2P256ReduceDegree]. *)
Definition sm2P256Mul_tmp (a b : sm2P256FieldElement)
  : sm2P256LargeFieldElement :=
  let tmp0 := mul64 (fe0 a) (fe0 b) in
  let tmp1 := mul64 (fe0 a) (fe1 b) in
  let tmp1 := add64 tmp1 (mul64 (fe1 a) (fe0 b)) in
  let tmp2 := mul64 (fe0 a) (fe2 b) in
  let tmp2 := add64 tmp2 (mul64 (fe1 a) (shl64 (fe1 b) 1)) in
  let tmp2 := add64 tmp2 (mul64 (fe2 a) (fe0 b)) in
  let tmp3 := mul64 (fe0 a) (fe3 b) in
  let tmp3 := add64 tmp3 (mul64 (fe1 a) (fe2 b)) in
  let tmp3 := add64 tmp3 (mul64 (fe2 a) (fe1 b)) in
  let tmp3 := add64 tmp3 (mul64 (fe3 a) (fe0 b)) in
  let tmp4 := mul64 (fe1 a) (fe3 b) in
  let tmp4 := add64 tmp4 (mul64 (fe3 a) (fe1 b)) in
  let tmp4 := shl64 tmp4 1 in
  let tmp4 := add64 tmp4 (mul64 (fe0 a) (fe4 b)) in
  let tmp4 := add64 tmp4 (mul64 (fe2 a) (fe2 b)) in
  let tmp4 := add64 tmp4 (mul64 (fe4 a) (fe0 b)) in
  let tmp5 := mul64 (fe0 a) (fe5 b) in
  let tmp5 := add64 tmp5 (mul64 (fe1 a) (fe4 b)) in
  let tmp5 := add64 tmp5 (mul64 (fe2 a) (fe3 b)) in
  let tmp5 := add64 tmp5 (mul64 (fe3 a) (fe2 b)) in
  let tmp5 := add64 tmp5 (mul64 (fe4 a) (fe1 b)) in
  let tmp5 := add64 tmp5 (mul64 (fe5 a) (fe0 b)) in
  let tmp6 := mul64 (fe1 a) (fe5 b) in
  let tmp6 := add64 tmp6 (mul64 (fe3 a) (fe3 b)) in
  let tmp6 := add64 tmp6 (mul64 (fe5 a) (fe1 b)) in
  let tmp6 := shl64 tmp6 1 in
  let tmp6 := add64 tmp6 (mul64 (fe0 a) (fe6 b)) in
  let tmp6 := add64 tmp6 (mul64 (fe2 a) (fe4 b)) in
  let tmp6 := add64 tmp6 (mul64 (fe4 a) (fe2 b)) in
  let tmp6 := add64 tmp6 (mul64 (fe6 a) (fe0 b)) in
  let tmp7 := mul64 (fe0 a) (fe7 b) in
  let tmp7 := add64 tmp7 (mul64 (fe1 a) (fe6 b)) in
  let tmp7 := add64 tmp7 (mul64 (fe2 a) (fe5 b)) in
  let tmp7 := add64 tmp7 (mul64 (fe3 a) (fe4 b)) in
  let tmp7 := add64 tmp7 (mul64 (fe4 a) (fe3 b)) in
  let tmp7 := add64 tmp7 (mul64 (fe5 a) (fe2 b)) in
  let tmp7 := add64 tmp7 (mul64 (fe6 a) (fe1 b)) in
  let tmp7 := add64 tmp7 (mul64 (fe7 a) (fe0 b)) in
  let tmp8 := mul64 (fe1 a) (fe7 b) in
  let tmp8 := add64 tmp8 (mul64 (fe3 a) (fe5 b)) in
  let tmp8 := add64 tmp8 (mul64 (fe5 a) (fe3 b)) in
  let tmp8 := add64 tmp8 (mul64 (fe7 a) (fe1 b)) in
  let tmp8 := shl64 tmp8 1 in
  let tmp8 := add64 tmp8 (mul64 (fe0 a) (fe8 b)) in
  let tmp8 := add64 tmp8 (mul64 (fe2 a) (fe6 b)) in
  let tmp8 := add64 tmp8 (mul64 (fe4 a) (fe4 b)) in
  let tmp8 := add64 tmp8 (mul64 (fe6 a) (fe2 b)) in
  let tmp8 := add64 tmp8 (mul64 (fe8 a) (fe0 b)) in
  let tmp9 := mul64 (fe1 a) (fe8 b) in
  let tmp9 := add64 tmp9 (mul64 (fe2 a) (fe7 b)) in
  let tmp9 := add64 tmp9 (mul64 (fe3 a) (fe6 b)) in
  let tmp9 := add64 tmp9 (mul64 (fe4 a) (fe5 b)) in
  let tmp9 := add64 tmp9 (mul64 (fe5 a) (fe4 b)) in
  let tmp9 := add64 tmp9 (mul64 (fe6 a) (fe3 b)) in
  let tmp9 := add64 tmp9 (mul64 (fe7 a) (fe2 b)) in
  let tmp9 := add64 tmp9 (mul64 (fe8 a) (fe1 b)) in
  let tmp10 := mul64 (fe3 a) (fe7 b) in
  let tmp10 := add64 tmp10 (mul64 (fe5 a) (fe5 b)) in
  let tmp10 := add64 tmp10 (mul64 (fe7 a) (fe3 b)) in
  let tmp10 := shl64 tmp10 1 in
  let tmp10 := add64 tmp10 (mul64 (fe2 a) (fe8 b)) in
  let tmp10 := add64 tmp10 (mul64 (fe4 a) (fe6 b)) in
  let tmp10 := add64 tmp10 (mul64 (fe6 a) (fe4 b)) in
  let tmp10 := add64 tmp10 (mul64 (fe8 a) (fe2 b)) in
  let tmp11 := mul64 (fe3 a) (fe8 b) in
  let tmp11 := add64 tmp11 (mul64 (fe4 a) (fe7 b)) in
  let tmp11 := add64 tmp11 (mul64 (fe5 a) (fe6 b)) in
  let tmp11 := add64 tmp11 (mul64 (fe6 a) (fe5 b)) in
  let tmp11 := add64 tmp11 (mul64 (fe7 a) (fe4 b)) in
  let tmp11 := add64 tmp11 (mul64 (fe8 a) (fe3 b)) in
  let tmp12 := mul64 (fe5 a) (fe7 b) in
  let tmp12 := add64 tmp12 (mul64 (fe7 a) (fe5 b)) in
  let tmp12 := shl64 tmp12 1 in
  let tmp12 := add64 tmp12 (mul64 (fe4 a) (fe8 b)) in
  let tmp12 := add64 tmp12 (mul64 (fe6 a) (fe6 b)) in
  let tmp12 := add64 tmp12 (mul64 (fe8 a) (fe4 b)) in
  let tmp13 := mul64 (fe5 a) (fe8 b) in
  let tmp13 := add64 tmp13 (mul64 (fe6 a) (fe7 b)) in
  let tmp13 := add64 tmp13 (mul64 (fe7 a) (fe6 b)) in
  let tmp13 := add64 tmp13 (mul64 (fe8 a) (fe5 b)) in
  let tmp14 := mul64 (fe6 a) (fe8 b) in
  let tmp14 := add64 tmp14 (shl64 (mul64 (fe7 a) (fe7 b)) 1) in
  let tmp14 := add64 tmp14 (mul64 (fe8 a) (fe6 b)) in
  let tmp15 := mul64 (fe7 a) (fe8 b) in
  let tmp15 := add64 tmp15 (mul64 (fe8 a) (fe7 b)) in
  let tmp16 := mul64 (fe8 a) (fe8 b) in
  LFE tmp0 tmp1 tmp2 tmp3 tmp4 tmp5 tmp6 tmp7 tmp8 tmp9 tmp10 tmp11 tmp12
      tmp13 tmp14 tmp15 tmp16.

Definition sm2P256Mul (a b : sm2P256FieldElement) : sm2P256FieldElement :=
  sm2P256ReduceDegree (sm2P256Mul_tmp a b).

(** The 17 cells [tmp] that [sm2P256Square] hands to [sm2P256ReduceDegree]. *)
Definition sm2P256Square_tmp (a : sm2P256FieldElement)
  : sm2P256LargeFieldElement :=
  let tmp0 := mul64 (fe0 a) (fe0 a) in
  let tmp1 := shl64 (mul64 (fe0 a) (fe1 a)) 1 in
  let tmp2 := mul64 (fe0 a) (fe2 a) in
  let tmp2 := add64 tmp2 (mul64 (fe1 a) (fe1 a)) in
  let tmp2 := shl64 tmp2 1 in
  let tmp3 := mul64 (fe0 a) (fe3 a) in
  let tmp3 := add64 tmp3 (mul64 (fe1 a) (fe2 a)) in
  let tmp3 := shl64 tmp3 1 in
  let tmp4 := mul64 (fe0 a) (fe4 a) in
  let tmp4 := add64 tmp4 (shl64 (mul64 (fe1 a) (fe3 a)) 1) in
  let tmp4 := shl64 tmp4 1 in
  let tmp4 := add64 tmp4 (mul64 (fe2 a) (fe2 a)) in
  let tmp5 := mul64 (fe0 a) (fe5 a) in
  let tmp5 := add64 tmp5 (mul64 (fe1 a) (fe4 a)) in
  let tmp5 := add64 tmp5 (mul64 (fe2 a) (fe3 a)) in
  let tmp5 := shl64 tmp5 1 in
  let tmp6 := mul64 (fe0 a) (fe6 a) in
  let tmp6 := add64 tmp6 (shl64 (mul64 (fe1 a) (fe5 a)) 1) in
  let tmp6 := add64 tmp6 (mul64 (fe2 a) (fe4 a)) in
  let tmp6 := add64 tmp6 (mul64 (fe3 a) (fe3 a)) in
  let tmp6 := shl64 tmp6 1 in
  let tmp7 := mul64 (fe0 a) (fe7 a) in
  let tmp7 := add64 tmp7 (mul64 (fe1 a) (fe6 a)) in
  let tmp7 := add64 tmp7 (mul64 (fe2 a) (fe5 a)) in
  let tmp7 := add64 tmp7 (mul64 (fe3 a) (fe4 a)) in
  let tmp7 := shl64 tmp7 1 in
  let tmp8 := mul64 (fe0 a) (fe8 a) in
  let tmp8 := add64 tmp8 (shl64 (mul64 (fe1 a) (fe7 a)) 1) in
  let tmp8 := add64 tmp8 (mul64 (fe2 a) (fe6 a)) in
  let tmp8 := add64 tmp8 (shl64 (mul64 (fe3 a) (fe5 a)) 1) in
  let tmp8 := shl64 tmp8 1 in
  let tmp8 := add64 tmp8 (mul64 (fe4 a) (fe4 a)) in
  let tmp9 := mul64 (fe1 a) (fe8 a) in
  let tmp9 := add64 tmp9 (mul64 (fe2 a) (fe7 a)) in
  let tmp9 := add64 tmp9 (mul64 (fe3 a) (fe6 a)) in
  let tmp9 := add64 tmp9 (mul64 (fe4 a) (fe5 a)) in
  let tmp9 := shl64 tmp9 1 in
  let tmp10 := mul64 (fe2 a) (fe8 a) in
  let tmp10 := add64 tmp10 (shl64 (mul64 (fe3 a) (fe7 a)) 1) in
  let tmp10 := add64 tmp10 (mul64 (fe4 a) (fe6 a)) in
  let tmp10 := add64 tmp10 (mul64 (fe5 a) (fe5 a)) in
  let tmp10 := shl64 tmp10 1 in
  let tmp11 := mul64 (fe3 a) (fe8 a) in
  let tmp11 := add64 tmp11 (mul64 (fe4 a) (fe7 a)) in
  let tmp11 := add64 tmp11 (mul64 (fe5 a) (fe6 a)) in
  let tmp11 := shl64 tmp11 1 in
  let tmp12 := mul64 (fe4 a) (fe8 a) in
  let tmp12 := add64 tmp12 (shl64 (mul64 (fe5 a) (fe7 a)) 1) in
  let tmp12 := shl64 tmp12 1 in
  let tmp12 := add64 tmp12 (mul64 (fe6 a) (fe6 a)) in
  let tmp13 := mul64 (fe5 a) (fe8 a) in
  let tmp13 := add64 tmp13 (mul64 (fe6 a) (fe7 a)) in
  let tmp13 := shl64 tmp13 1 in
  let tmp14 := mul64 (fe6 a) (fe8 a) in
  let tmp14 := add64 tmp14 (mul64 (fe7 a) (fe7 a)) in
  let tmp14 := shl64 tmp14 1 in
  let tmp15 := shl64 (mul64 (fe7 a) (fe8 a)) 1 in
  let tmp16 := mul64 (fe8 a) (fe8 a) in
  LFE tmp0 tmp1 tmp2 tmp3 tmp4 tmp5 tmp6 tmp7 tmp8 tmp9 tmp10 tmp11 tmp12
      tmp13 tmp14 tmp15 tmp16.

Definition sm2P256Square (a : sm2P256FieldElement) : sm2P256FieldElement :=
  sm2P256ReduceDegree (sm2P256Square_tmp a).

(** ** The two-way routines

    [sm2P256Mul2Way], [sm2P256Square2Way] and [sm2P256ReduceDegree2Way] are
    Go wrappers around four assembly kernels whose text is not part of the
    sources at hand. *)

Definition lfe_zero : sm2P256LargeFieldElement :=
  LFE 0 0 0 0 0 0 0 0 0 0 0 0 0 0 0 0 0.

(** Modelled from the spec: the assembly kernel [_sm2P256Mul2Way1] is
    missing.  The spec says that the two-way variants compute two
    independent products into two wide elements with the contract of
    [sm2P256Mul]; the wrapper itself computes cell 8 of both, so this first
    kernel is taken to fill the cells below 8 of [tmp1] from (a1, b1) and of
    [tmp2] from (a2, b2), with the values [sm2P256Mul] gives them. *)
Definition _sm2P256Mul2Way1
  (tmp1 : sm2P256LargeFieldElement) (a1 b1 : sm2P256FieldElement)
  (tmp2 : sm2P256LargeFieldElement) (a2 b2 : sm2P256FieldElement)
  : sm2P256LargeFieldElement * sm2P256LargeFieldElement :=
  let low (tmp p : sm2P256LargeFieldElement) :=
    LFE (lf0 p) (lf1 p) (lf2 p) (lf3 p) (lf4 p) (lf5 p) (lf6 p) (lf7 p)
        (lf8 tmp) (lf9 tmp) (lf10 tmp) (lf11 tmp) (lf12 tmp) (lf13 tmp)
        (lf14 tmp) (lf15 tmp) (lf16 tmp) in
  (low tmp1 (sm2P256Mul_tmp a1 b1), low tmp2 (sm2P256Mul_tmp a2 b2)).

(** Modelled from the spec: the assembly kernel [_sm2P256Mul2Way2] is
    missing; it is taken to fill the cells above 8 of both wide elements,
    with the values [sm2P256Mul] gives them. *)
Definition _sm2P256Mul2Way2
  (tmp1 : sm2P256LargeFieldElement) (a1 b1 : sm2P256FieldElement)
  (tmp2 : sm2P256LargeFieldElement) (a2 b2 : sm2P256FieldElement)
  : sm2P256LargeFieldElement * sm2P256LargeFieldElement :=
  let high (tmp p : sm2P256LargeFieldElement) :=
    LFE (lf0 tmp) (lf1 tmp) (lf2 tmp) (lf3 tmp) (lf4 tmp) (lf5 tmp) (lf6 tmp)
        (lf7 tmp) (lf8 tmp) (lf9 p) (lf10 p) (lf11 p) (lf12 p) (lf13 p)
        (lf14 p) (lf15 p) (lf16 p) in
  (high tmp1 (sm2P256Mul_tmp a1 b1), high tmp2 (sm2P256Mul_tmp a2 b2)).

(** Modelled from the spec: the assembly kernel [_sm2P256Square2Way] is
    missing; it is taken to compute the two wide squares, with the cells
    [sm2P256Square] computes. *)
Definition _sm2P256Square2Way
  (tmp : sm2P256LargeFieldElement) (a : sm2P256FieldElement)
  (tmp2 : sm2P256LargeFieldElement) (a2 : sm2P256FieldElement)
  : sm2P256LargeFieldElement * sm2P256LargeFieldElement :=
  (sm2P256Square_tmp a, sm2P256Square_tmp a2).

(** Modelled from the spec: the assembly kernel [_sm2ReduceDegree_2way] is
    missing.  The spec calls it a batched reduction with the contract of
    [sm2P256ReduceDegree]; the wrapper takes the two carries from the low
    and the high 32 bits of the returned word and calls
    [sm2P256ReduceCarry] itself, so the kernel is taken to run
    [sm2P256FromLargeElement], the rounds and [sm2P256DivideByR] on both
    wide elements and to return both carries packed in one word. *)
Definition _sm2ReduceDegree_2way (b b2 : sm2P256LargeFieldElement)
  : sm2P256FieldElement * sm2P256FieldElement * Z :=
  let '(a, carry) := sm2P256DivideByR (reduceRounds (sm2P256FromLargeElement b)) in
  let '(a2, carry2) :=
    sm2P256DivideByR (reduceRounds (sm2P256FromLargeElement b2)) in
  (a, a2, Z.lor (u64 carry) (shl64 carry2 32)).

Definition sm2P256ReduceDegree2Way (b b2 : sm2P256LargeFieldElement)
  : sm2P256FieldElement * sm2P256FieldElement :=
  let '(a, a2, carry_temp) := _sm2ReduceDegree_2way b b2 in
  let carry := u32 carry_temp in
  let carry2 := u32 (Z.shiftr carry_temp 32) in
  (sm2P256ReduceCarry a carry, sm2P256ReduceCarry a2 carry2).

Definition set_lf8 (tmp : sm2P256LargeFieldElement) (v : Z)
  : sm2P256LargeFieldElement :=
  LFE (lf0 tmp) (lf1 tmp) (lf2 tmp) (lf3 tmp) (lf4 tmp) (lf5 tmp) (lf6 tmp)
      (lf7 tmp) v (lf9 tmp) (lf10 tmp) (lf11 tmp) (lf12 tmp) (lf13 tmp)
      (lf14 tmp) (lf15 tmp) (lf16 tmp).

(** The result is the pair (c, c2). *)
Definition sm2P256Mul2Way (a1 b1 a2 b2 : sm2P256FieldElement)
  : sm2P256FieldElement * sm2P256FieldElement :=
  let tmp1 := lfe_zero in
  let tmp2 := lfe_zero in
  let '(tmp1, tmp2) := _sm2P256Mul2Way1 tmp1 a1 b1 tmp2 a2 b2 in
  let tmp8 := mul64 (fe1 a1) (fe7 b1) in
  let tmp8 := add64 tmp8 (mul64 (fe3 a1) (fe5 b1)) in
  let tmp8 := add64 tmp8 (mul64 (fe5 a1) (fe3 b1)) in
  let tmp8 := add64 tmp8 (mul64 (fe7 a1) (fe1 b1)) in
  let tmp8 := shl64 tmp8 1 in
  let tmp8 := add64 tmp8 (mul64 (fe0 a1) (fe8 b1)) in
  let tmp8 := add64 tmp8 (mul64 (fe2 a1) (fe6 b1)) in
  let tmp8 := add64 tmp8 (mul64 (fe4 a1) (fe4 b1)) in
  let tmp8 := add64 tmp8 (mul64 (fe6 a1) (fe2 b1)) in
  let tmp8 := add64 tmp8 (mul64 (fe8 a1) (fe0 b1)) in
  let tmp1 := set_lf8 tmp1 tmp8 in
  let tmp8 := mul64 (fe1 a2) (fe7 b2) in
  let tmp8 := add64 tmp8 (mul64 (fe3 a2) (fe5 b2)) in
  let tmp8 := add64 tmp8 (mul64 (fe5 a2) (fe3 b2)) in
  let tmp8 := add64 tmp8 (mul64 (fe7 a2) (fe1 b2)) in
  let tmp8 := shl64 tmp8 1 in
  let tmp8 := add64 tmp8 (mul64 (fe0 a2) (fe8 b2)) in
  let tmp8 := add64 tmp8 (mul64 (fe2 a2) (fe6 b2)) in
  let tmp8 := add64 tmp8 (mul64 (fe4 a2) (fe4 b2)) in
  let tmp8 := add64 tmp8 (mul64 (fe6 a2) (fe2 b2)) in
  let tmp8 := add64 tmp8 (mul64 (fe8 a2) (fe0 b2)) in
  let tmp2 := set_lf8 tmp2 tmp8 in
  let '(tmp1, tmp2) := _sm2P256Mul2Way2 tmp1 a1 b1 tmp2 a2 b2 in
  sm2P256ReduceDegree2Way tmp1 tmp2.

(** The result is the pair (b, b2). *)
Definition sm2P256Square2Way (a a2 : sm2P256FieldElement)
  : sm2P256FieldElement * sm2P256FieldElement :=
  let tmp := lfe_zero in
  let tmp2 := lfe_zero in
  let '(tmp, tmp2) := _sm2P256Square2Way tmp a tmp2 a2 in
  sm2P256ReduceDegree2Way tmp tmp2.

(** ** Constant-time copy and table selection *)

Definition not32 (x : Z) : Z := Z.lxor x bottom32BitsMask.

(** poisitiveToAllOnes returns:
      0xffffffff for 0 < x <= 2**31
      0 for x == 0 or x > 2**31. *)
Definition poisitiveToAllOnes (x : Z) : Z :=
  sub32 (Z.shiftr (sub32 x 1) 31) 1.

(** One cell of [sm2P256CopyConditional]:
    tmp := mask & (in[i] ^ out[i]); out[i] ^= tmp. *)
Definition copyCell (out inp mask : Z) : Z :=
  let tmp := Z.land mask (Z.lxor inp out) in
  Z.lxor out tmp.

(** sm2P256CopyConditional sets out=in if mask = 0xffffffff in constant time. *)
Definition sm2P256CopyConditional (out inp : sm2P256FieldElement) (mask : Z)
  : sm2P256FieldElement :=
  FE (copyCell (fe0 out) (fe0 inp) mask) (copyCell (fe1 out) (fe1 inp) mask)
     (copyCell (fe2 out) (fe2 inp) mask) (copyCell (fe3 out) (fe3 inp) mask)
     (copyCell (fe4 out) (fe4 inp) mask) (copyCell (fe5 out) (fe5 inp) mask)
     (copyCell (fe6 out) (fe6 inp) mask) (copyCell (fe7 out) (fe7 inp) mask)
     (copyCell (fe8 out) (fe8 inp) mask).

(** Table reads are instrumented: a computation returns its value together
    with the list, in program order, of the table cells it has read. *)
Definition Traced (A : Type) : Type := (A * list Z)%type.

Definition ret {A : Type} (a : A) : Traced A := (a, []).

Definition bind {A B : Type} (m : Traced A) (f : A -> Traced B) : Traced B :=
  let '(a, r1) := m in
  let '(b, r2) := f a in
  (b, r1 ++ r2).

Notation "x <- m ;; k" := (bind m (fun x => k))
  (at level 61, m at next level, right associativity).

Definition value {A : Type} (m : Traced A) : A := fst m.
Definition reads {A : Type} (m : Traced A) : list Z := snd m.

(** The read [table[i]] of a flat table. *)
Definition readCell (table : list Z) (i : Z) : Traced Z := (cell table i, [i]).

(** The body of the loop of [sm2P256SelectAffinePoint], for the cells [js]:
    xOut[j] = table[xbase+uint32(j)]; yOut[j] = table[ybase+uint32(j)]. *)
Fixpoint selectAffineLoop (table : list Z) (xbase ybase : Z) (js : list Z)
  : Traced (list Z * list Z) :=
  match js with
  | [] => ret ([], [])
  | j :: js' =>
      x <- readCell table (add32 xbase (u32 j)) ;;
      y <- readCell table (add32 ybase (u32 j)) ;;
      r <- selectAffineLoop table xbase ybase js' ;;
      ret (x :: fst r, y :: snd r)
  end.

Definition range9 : list Z := [0; 1; 2; 3; 4; 5; 6; 7; 8].

(** sm2P256SelectAffinePoint sets {out_x,out_y} to the index'th entry of
    table.  On entry: index < 16, table[0] must be zero. *)
Definition sm2P256SelectAffinePoint (table : list Z) (index : Z)
  : Traced (sm2P256FieldElement * sm2P256FieldElement) :=
  let xbase := u32 (index * 18) in
  let ybase := add32 xbase 9 in
  r <- selectAffineLoop table xbase ybase range9 ;;
  ret (fe_of_list (fst r), fe_of_list (snd r)).

(** The table [[16][3]sm2P256FieldElement] of the variable-base
    multiplication; cell [j] of coordinate [c] of entry [i] is numbered
    27 * i + 9 * c + j in the trace of reads. *)
Definition jacobianTable : Set :=
  list (sm2P256FieldElement * sm2P256FieldElement * sm2P256FieldElement).

Definition jacobianEntry (table : jacobianTable) (i : Z)
  : sm2P256FieldElement * sm2P256FieldElement * sm2P256FieldElement :=
  nth (Z.to_nat i) table (fe_zero, fe_zero, fe_zero).

Definition readJacobianCell (table : jacobianTable) (i c j : Z) : Traced Z :=
  let '(x, y, z) := jacobianEntry table i in
  let coord := if c =? 0 then x else if c =? 1 then y else z in
  (cell (fe_to_list coord) j, [27 * i + 9 * c + j]).

(** The body of the loop of [sm2P256SelectJacobianPoint]:
    xOut[j] = table[index][0][j]; yOut[j] = table[index][1][j];
    zOut[j] = table[index][2][j]. *)
Fixpoint selectJacobianLoop (table : jacobianTable) (index : Z) (js : list Z)
  : Traced (list Z * list Z * list Z) :=
  match js with
  | [] => ret ([], [], [])
  | j :: js' =>
      x <- readJacobianCell table index 0 j ;;
      y <- readJacobianCell table index 1 j ;;
      z <- readJacobianCell table index 2 j ;;
      r <- selectJacobianLoop table index js' ;;
      ret (x :: fst (fst r), y :: snd (fst r), z :: snd r)
  end.

(** sm2P256SelectJacobianPoint sets {out_x,out_y,out_z} to the index'th
    entry of table.  On entry: index < 16, table[0] must be zero. *)
Definition sm2P256SelectJacobianPoint (table : jacobianTable) (index : Z)
  : Traced (sm2P256FieldElement * sm2P256FieldElement * sm2P256FieldElement) :=
  r <- selectJacobianLoop table index range9 ;;
  ret (fe_of_list (fst (fst r)), fe_of_list (snd (fst r)), fe_of_list (snd r)).

(** sm2P256GetBit returns the bit'th bit of scalar. *)
Definition sm2P256GetBit (scalar : list Z) (bit : Z) : Z :=
  Z.land (Z.shiftr (cell scalar (Z.shiftr bit 3)) (Z.land bit 7)) 1.

(** ** Point arithmetic in Jacobian coordinates *)

Definition point : Set :=
  (sm2P256FieldElement * sm2P256FieldElement * sm2P256FieldElement)%type.

(** The curve coefficients in field-element form, set by [initP256Sm2]. *)
Definition sm2P256_a : sm2P256FieldElement := sm2P256FromBig sm2P256_A.
Definition sm2P256_b : sm2P256FieldElement := sm2P256FromBig sm2P256_B.
Definition sm2P256_gx : sm2P256FieldElement := sm2P256FromBig sm2P256_Gx.
Definition sm2P256_gy : sm2P256FieldElement := sm2P256FromBig sm2P256_Gy.

(** The result is (x3, y3, z3). *)
Definition sm2P256PointDouble (x y z : sm2P256FieldElement) : point :=
  let '(x2, z4_mul_a) := sm2P256Square2Way x z in
  let '(y2, z4_mul_a) := sm2P256Square2Way y z4_mul_a in
  let '(z4_mul_a, s) := sm2P256Mul2Way z4_mul_a sm2P256_a x y2 in
  let lambda := sm2P256Add x2 x2 in
  let lambda := sm2P256Add lambda x2 in
  let lambda := sm2P256Add lambda z4_mul_a in
  let y4_mul_8 := sm2P256Add y2 y2 in
  let '(lambda2, y4_mul_8) := sm2P256Square2Way lambda y4_mul_8 in
  let y4_mul_8 := sm2P256Add y4_mul_8 y4_mul_8 in
  let s := sm2P256Add s s in
  let s := sm2P256Add s s in
  let x3 := sm2P256Sub lambda2 s in
  let x3 := sm2P256Sub x3 s in
  let t := sm2P256Sub s x3 in
  let '(t, z3) := sm2P256Mul2Way t lambda y z in
  let y3 := sm2P256Sub t y4_mul_8 in
  let z3 := sm2P256Add z3 z3 in
  (x3, y3, z3).

(** (xOut, yOut, zOut) = (x1, y1, z1) + (x2, y2) *)
Definition sm2P256PointAddMixed (x1 y1 z1 x2 y2 : sm2P256FieldElement) : point :=
  let z1z1 := sm2P256Square z1 in
  let '(tx2, z1z1z1) := sm2P256Mul2Way x2 z1z1 z1 z1z1 in
  let dx := sm2P256Sub tx2 x1 in
  let '(zOut, ty2) := sm2P256Mul2Way z1 dx y2 z1z1z1 in
  let dy := sm2P256Sub ty2 y1 in
  let '(dx2, dy2) := sm2P256Square2Way dx dy in
  let '(dx3, v) := sm2P256Mul2Way dx dx2 x1 dx2 in
  let xOut := sm2P256Sub dy2 dx3 in
  let xOut := sm2P256Sub xOut v in
  let xOut := sm2P256Sub xOut v in
  let tmp := sm2P256Sub v xOut in
  let '(yOut, tmp) := sm2P256Mul2Way tmp dy y1 dx3 in
  let yOut := sm2P256Sub yOut tmp in
  (xOut, yOut, zOut).

(** The two scans of [sm2P256PointAdd] over a z coordinate. *)
Definition is_zero (z : sm2P256FieldElement) : bool :=
  forallb (fun v => v =? 0) (fe_to_list z).

Definition is_p (z : sm2P256FieldElement) : bool :=
  forallb (fun vp => fst vp =? snd vp) (combine (fe_to_list z) pv).

(** b = a *)
Definition sm2P256Dup (a : sm2P256FieldElement) : sm2P256FieldElement := a.

(** (x3, y3, z3) = (x1, y1, z1) + (x2, y2, z2); the three results are
    returned, and are cells distinct from the six arguments, as at the
    call in [sm2P256ScalarMult]. *)
Definition sm2P256PointAdd (x1 y1 z1 x2 y2 z2 : sm2P256FieldElement) : point :=
  let is_z1_zero := is_zero z1 in
  let is_z1_p := is_p z1 in
  if is_z1_zero || is_z1_p then
    (sm2P256Dup x2, sm2P256Dup y2, sm2P256Dup z2)
  else
  let is_z2_zero := is_zero z2 in
  let is_z2_p := is_p z2 in
  if is_z2_zero || is_z2_p then
    (sm2P256Dup x1, sm2P256Dup y1, sm2P256Dup z1)
  else
  let '(z12, z22) := sm2P256Square2Way z1 z2 in
  let '(z13, z23) := sm2P256Mul2Way z12 z1 z22 z2 in
  let '(tx1, tx2) := sm2P256Mul2Way x1 z22 x2 z12 in
  let '(ty1, ty2) := sm2P256Mul2Way y1 z23 y2 z13 in
  let dx := sm2P256Sub tx2 tx1 in
  let dy := sm2P256Sub ty2 ty1 in
  let '(dy2, dx2) := sm2P256Square2Way dy dx in
  let '(dx3, tm) := sm2P256Mul2Way dx2 dx tx1 dx2 in
  let x3 := sm2P256Sub dy2 dx3 in
  let x3 := sm2P256Sub x3 tm in
  let x3 := sm2P256Sub x3 tm in
  let tm := sm2P256Sub tm x3 in
  let '(y3, z3) := sm2P256Mul2Way dy tm z1 z2 in
  let '(tm, z3) := sm2P256Mul2Way dx3 ty1 z3 dx in
  let y3 := sm2P256Sub y3 tm in
  (x3, y3, z3).

(** ** Scalar multiplication *)

(** State of the loops: the accumulator and the infinity mask. *)
Definition accState : Set := (point * Z)%type.

(** The body of the inner loop of [sm2P256ScalarBaseMult] for one j; the
    table offset is carried along. *)
Definition baseMultStep (scalar : list Z) (i : Z) (st : accState * Z) (j : Z)
  : accState * Z :=
  let '((xOut, yOut, zOut), nIsInfinityMask, tableOffset) := st in
  let bit0 := sm2P256GetBit scalar (31 - i + j) in
  let bit1 := sm2P256GetBit scalar (95 - i + j) in
  let bit2 := sm2P256GetBit scalar (159 - i + j) in
  let bit3 := sm2P256GetBit scalar (223 - i + j) in
  let index :=
    Z.lor (Z.lor (Z.lor bit0 (Z.shiftl bit1 1)) (Z.shiftl bit2 2))
          (Z.shiftl bit3 3) in
  let '(px, py) :=
    value (sm2P256SelectAffinePoint
             (skipn (Z.to_nat tableOffset) sm2P256Precomputed) index) in
  let tableOffset := add32 tableOffset (30 * 9) in
  let '(tx, ty, tz) := sm2P256PointAddMixed xOut yOut zOut px py in
  let xOut := sm2P256CopyConditional xOut px nIsInfinityMask in
  let yOut := sm2P256CopyConditional yOut py nIsInfinityMask in
  let zOut := sm2P256CopyConditional zOut sm2P256Factor_1 nIsInfinityMask in
  let pIsNoninfiniteMask := poisitiveToAllOnes index in
  let mask := Z.land pIsNoninfiniteMask (not32 nIsInfinityMask) in
  let xOut := sm2P256CopyConditional xOut tx mask in
  let yOut := sm2P256CopyConditional yOut ty mask in
  let zOut := sm2P256CopyConditional zOut tz mask in
  let nIsInfinityMask := Z.land nIsInfinityMask (not32 pIsNoninfiniteMask) in
  ((xOut, yOut, zOut), nIsInfinityMask, tableOffset).

(** The body of the outer loop of [sm2P256ScalarBaseMult]. *)
Definition baseMultRound (scalar : list Z) (st : accState) (i : Z) : accState :=
  let '((xOut, yOut, zOut), nIsInfinityMask) := st in
  let '(xOut, yOut, zOut) :=
    if negb (i =? 0) then sm2P256PointDouble xOut yOut zOut
    else (xOut, yOut, zOut) in
  let tableOffset := 0 in
  fst (fold_left (baseMultStep scalar i) [0; 32]
                 ((xOut, yOut, zOut), nIsInfinityMask, tableOffset)).

Definition upto (n : nat) : list Z := map Z.of_nat (seq 0 n).

(** sm2P256ScalarBaseMult sets {xOut,yOut,zOut} = scalar*G where scalar is
    a little-endian number.  Note that the value of scalar must be less
    than the order of the group. *)
Definition sm2P256ScalarBaseMult (scalar : list Z) : point :=
  let nIsInfinityMask := not32 0 in
  let st := ((fe_zero, fe_zero, fe_zero), nIsInfinityMask) in
  fst (fold_left (baseMultRound scalar) (upto 32) st).

Fixpoint setEntry {A : Type} (l : list A) (n : nat) (v : A) : list A :=
  match l, n with
  | [], _ => []
  | _ :: l', O => v :: l'
  | a :: l', S n' => a :: setEntry l' n' v
  end.

(** The body of the loop that fills [precomp] in [sm2P256ScalarMult]. *)
Definition precompStep (x y : sm2P256FieldElement) (precomp : jacobianTable)
  (i : Z) : jacobianTable :=
  let half_i := i / 2 in
  let i_plus_1 := i + 1 in
  let '(hx, hy, hz) := jacobianEntry precomp half_i in
  let d := sm2P256PointDouble hx hy hz in
  let precomp := setEntry precomp (Z.to_nat i) d in
  let '(dx, dy, dz) := jacobianEntry precomp i in
  let m := sm2P256PointAddMixed dx dy dz x y in
  setEntry precomp (Z.to_nat i_plus_1) m.

Definition sm2P256ScalarMult_precomp (x y : sm2P256FieldElement) : jacobianTable :=
  let precomp := repeat (fe_zero, fe_zero, fe_zero) 16 in
  let precomp := setEntry precomp 1 (x, y, sm2P256Factor_1) in
  fold_left (precompStep x y) [2; 4; 6; 8; 10; 12; 14] precomp.

(** The body of the main loop of [sm2P256ScalarMult]. *)
Definition scalarMultRound (precomp : jacobianTable) (scalar : list Z)
  (st : accState) (i : Z) : accState :=
  let '((xOut, yOut, zOut), tIsInfinityMask) := st in
  let '(xOut, yOut, zOut) :=
    if negb (i =? 0) then
      let '(xOut, yOut, zOut) := sm2P256PointDouble xOut yOut zOut in
      let '(xOut, yOut, zOut) := sm2P256PointDouble xOut yOut zOut in
      let '(xOut, yOut, zOut) := sm2P256PointDouble xOut yOut zOut in
      sm2P256PointDouble xOut yOut zOut
    else (xOut, yOut, zOut) in
  let index := cell scalar (31 - i / 2) in
  let index :=
    if Z.land i 1 =? 1 then Z.land index 15 else Z.shiftr index 4 in
  let '(px, py, pz) := value (sm2P256SelectJacobianPoint precomp index) in
  let '(tx, ty, tz) := sm2P256PointAdd xOut yOut zOut px py pz in
  let xOut := sm2P256CopyConditional xOut px tIsInfinityMask in
  let yOut := sm2P256CopyConditional yOut py tIsInfinityMask in
  let zOut := sm2P256CopyConditional zOut pz tIsInfinityMask in
  let pIsNoninfiniteMask := poisitiveToAllOnes index in
  let mask := Z.land pIsNoninfiniteMask (not32 tIsInfinityMask) in
  let xOut := sm2P256CopyConditional xOut tx mask in
  let yOut := sm2P256CopyConditional yOut ty mask in
  let zOut := sm2P256CopyConditional zOut tz mask in
  let tIsInfinityMask := Z.land tIsInfinityMask (not32 pIsNoninfiniteMask) in
  ((xOut, yOut, zOut), tIsInfinityMask).

(** sm2P256ScalarMult sets {xOut,yOut,zOut} = scalar*(x,y) where scalar is
    a little-endian number.  The accumulator is the caller's
    (xOut, yOut, zOut); [tIsInfinityMask] is declared without a value and
    so starts at 0, the assignment of all-ones being commented out. *)
Definition sm2P256ScalarMult (xOut yOut zOut x y : sm2P256FieldElement)
  (scalar : list Z) : point :=
  let precomp := sm2P256ScalarMult_precomp x y in
  let tIsInfinityMask := 0 in
  fst (fold_left (scalarMultRound precomp scalar) (upto 64)
                 ((xOut, yOut, zOut), tIsInfinityMask)).

(** ** The curve facade *)

(** [big.Int.SetBytes]: the big-endian value of a byte slice. *)
Definition SetBytes (a : list Z) : Z :=
  fold_left (fun acc v => acc * 256 + v) a 0.

Fixpoint bytesLittleEndian (fuel : nat) (n : Z) : list Z :=
  match fuel with
  | O => []
  | S fuel' =>
      if n =? 0 then [] else n mod 256 :: bytesLittleEndian fuel' (n / 256)
  end.

(** [big.Int.Bytes]: the big-endian bytes of the magnitude, without
    leading zeros; [Z.log2 n + 1] steps exhaust every bit of n. *)
Definition Bytes (n : Z) : list Z :=
  rev (bytesLittleEndian (S (Z.to_nat (Z.log2 (Z.abs n)))) (Z.abs n)).

(** The write [b[i] = v] into an array: a panic of the run time when [i]
    is out of range is [None]. *)
Definition store (b : list Z) (i : Z) (v : Z) : option (list Z) :=
  if (0 <=? i) && (i <? Z.of_nat (length b))
  then Some (setEntry b (Z.to_nat i) v)
  else None.

(** The loop [for i, v := range scalarBytes] of [sm2P256GetScalar], from
    index [i] on, [len] being [len(scalarBytes)]. *)
Fixpoint getScalarLoop (b : list Z) (len i : Z) (vs : list Z)
  : option (list Z) :=
  match vs with
  | [] => Some b
  | v :: vs' =>
      match store b (len - (1 + i)) v with
      | Some b' => getScalarLoop b' len (i + 1) vs'
      | None => None
      end
  end.

(** Big-endian to little-endian. *)
Definition sm2P256GetScalar (b : list Z) (a : list Z) : option (list Z) :=
  let n := SetBytes a in
  let scalarBytes :=
    if sm2P256_N <=? n then Bytes (n mod sm2P256_N) else a in
  getScalarLoop b (Z.of_nat (length scalarBytes)) 0 scalarBytes.

(** Extended Euclid, for [big.Int.ModInverse]: the result (g, x, y) has
    a * x + b * y = g. *)
Fixpoint egcd (fuel : nat) (a b : Z) : Z * Z * Z :=
  match fuel with
  | O => (a, 1, 0)
  | S fuel' =>
      if b =? 0 then (a, 1, 0)
      else
        let '(g, x, y) := egcd fuel' b (a mod b) in
        (g, y, x - a / b * y)
  end.

(** [z.ModInverse(g, n)] for a modulus n > 0: z becomes the inverse of g
    in [0, n) when g and n are coprime and is left unchanged otherwise.
    A 256-bit modulus needs fewer than 400 steps of Euclid. *)
Definition ModInverse (z g n : Z) : Z :=
  let '(d, x, _) := egcd 1000 (g mod n) n in
  if d =? 1 then x mod n else z.

(** xOut = x / z^2, yOut = y / z^3 *)
Definition sm2P256PointToAffine (x y z : sm2P256FieldElement)
  : sm2P256FieldElement * sm2P256FieldElement :=
  let zz := sm2P256ToBig z in
  let zz := ModInverse zz zz sm2P256_P in
  let zInv := sm2P256FromBig zz in
  let zInvSq := sm2P256Square zInv in
  let '(xOut, zInv) := sm2P256Mul2Way x zInvSq zInv zInvSq in
  let yOut := sm2P256Mul y zInv in
  (xOut, yOut).

Definition sm2P256ToAffine (x y z : sm2P256FieldElement) : Z * Z :=
  let '(xx, yy) := sm2P256PointToAffine x y z in
  (sm2P256ToBig xx, sm2P256ToBig yy).

(** y^2 = x^3 + ax + b *)
Definition IsOnCurve (X Y : Z) : bool :=
  let x := sm2P256FromBig X in
  let y := sm2P256FromBig Y in
  let '(x3, y2) := sm2P256Square2Way x y in
  let '(x3, a) := sm2P256Mul2Way x3 x sm2P256_a x in
  let x3 := sm2P256Add x3 a in
  let x3 := sm2P256Add x3 sm2P256_b in
  sm2P256ToBig x3 =? sm2P256ToBig y2.

(** [var scalarReversed [32]byte] *)
Definition scalarReversed0 : list Z := repeat 0 32.

(** [None] stands for the panic of an out-of-range write in
    [sm2P256GetScalar]. *)
Definition ScalarMult (x1 y1 : Z) (k : list Z) : option (Z * Z) :=
  let X1 := sm2P256FromBig x1 in
  let Y1 := sm2P256FromBig y1 in
  match sm2P256GetScalar scalarReversed0 k with
  | None => None
  | Some scalarReversed =>
      let '(X, Y, Z) :=
        sm2P256ScalarMult fe_zero fe_zero fe_zero X1 Y1 scalarReversed in
      Some (sm2P256ToAffine X Y Z)
  end.

Definition ScalarBaseMult (k : list Z) : option (Z * Z) :=
  match sm2P256GetScalar scalarReversed0 k with
  | None => None
  | Some scalarReversed =>
      let '(X, Y, Z) := sm2P256ScalarBaseMult scalarReversed in
      Some (sm2P256ToAffine X Y Z)
  end.

(** ** Notions used by the statements *)

(** Limbs within the slack of the representation: every cell stays below
    twice its nominal bound (29 or 28 bits plus one). *)
Definition in_slack (a : sm2P256FieldElement) : Prop :=
  0 <= fe0 a < 2 ^ 30 /\ 0 <= fe1 a < 2 ^ 29 /\ 0 <= fe2 a < 2 ^ 30 /\
  0 <= fe3 a < 2 ^ 29 /\ 0 <= fe4 a < 2 ^ 30 /\ 0 <= fe5 a < 2 ^ 29 /\
  0 <= fe6 a < 2 ^ 30 /\ 0 <= fe7 a < 2 ^ 29 /\ 0 <= fe8 a < 2 ^ 30.

(** Limbs within their nominal widths 29, 28, 29, ..., 29. *)
Definition nominal (a : sm2P256FieldElement) : Prop :=
  0 <= fe0 a < 2 ^ 29 /\ 0 <= fe1 a < 2 ^ 28 /\ 0 <= fe2 a < 2 ^ 29 /\
  0 <= fe3 a < 2 ^ 28 /\ 0 <= fe4 a < 2 ^ 29 /\ 0 <= fe5 a < 2 ^ 28 /\
  0 <= fe6 a < 2 ^ 29 /\ 0 <= fe7 a < 2 ^ 28 /\ 0 <= fe8 a < 2 ^ 29.

(** Row [carry] of the table [sm2P256Carry], as a field element. *)
Definition carryRow (carry : Z) : sm2P256FieldElement :=
  FE (cell sm2P256Carry (carry * 9 + 0)) (cell sm2P256Carry (carry * 9 + 1))
     (cell sm2P256Carry (carry * 9 + 2)) (cell sm2P256Carry (carry * 9 + 3))
     (cell sm2P256Carry (carry * 9 + 4)) (cell sm2P256Carry (carry * 9 + 5))
     (cell sm2P256Carry (carry * 9 + 6)) (cell sm2P256Carry (carry * 9 + 7))
     (cell sm2P256Carry (carry * 9 + 8)).

(** The number that a wide element stands for: cell 2i weighs 2^(57 i) and
    cell 2i+1 weighs 2^(57 i + 29). *)
Definition lfe_value (t : sm2P256LargeFieldElement) : Z :=
  lf0 t + 2 ^ 29 * lf1 t + 2 ^ 57 * lf2 t + 2 ^ 86 * lf3 t + 2 ^ 114 * lf4 t
  + 2 ^ 143 * lf5 t + 2 ^ 171 * lf6 t + 2 ^ 200 * lf7 t + 2 ^ 228 * lf8 t
  + 2 ^ 257 * lf9 t + 2 ^ 285 * lf10 t + 2 ^ 314 * lf11 t + 2 ^ 342 * lf12 t
  + 2 ^ 371 * lf13 t + 2 ^ 399 * lf14 t + 2 ^ 428 * lf15 t + 2 ^ 456 * lf16 t.

(** The cells of a wide element stay below 2^63, the last two below 2^61
    and 2^60: no sum of [sm2P256FromLargeElement] wraps. *)
Definition lfe_bounded (t : sm2P256LargeFieldElement) : Prop :=
  0 <= lf0 t < 2 ^ 63 /\ 0 <= lf1 t < 2 ^ 63 /\ 0 <= lf2 t < 2 ^ 63 /\
  0 <= lf3 t < 2 ^ 63 /\ 0 <= lf4 t < 2 ^ 63 /\ 0 <= lf5 t < 2 ^ 63 /\
  0 <= lf6 t < 2 ^ 63 /\ 0 <= lf7 t < 2 ^ 63 /\ 0 <= lf8 t < 2 ^ 63 /\
  0 <= lf9 t < 2 ^ 63 /\ 0 <= lf10 t < 2 ^ 63 /\ 0 <= lf11 t < 2 ^ 63 /\
  0 <= lf12 t < 2 ^ 63 /\ 0 <= lf13 t < 2 ^ 63 /\ 0 <= lf14 t < 2 ^ 63 /\
  0 <= lf15 t < 2 ^ 61 /\ 0 <= lf16 t < 2 ^ 60.

(** The number that the buffer of the reduction stands for, its cells
    weighing 2^(57 i). *)
Definition tmp64_value (t : tmp64) : Z :=
  t0 t + 2 ^ 57 * t1 t + 2 ^ 114 * t2 t + 2 ^ 171 * t3 t + 2 ^ 228 * t4 t
  + 2 ^ 285 * t5 t + 2 ^ 342 * t6 t + 2 ^ 399 * t7 t + 2 ^ 456 * t8 t
  + 2 ^ 513 * t9 t.

(** What one guarded round of [sm2P256ReduceDegree] adds to each of the
    five cells after cell j, as integers: the round adds x64 * (p + 1) /
    2^57 = x64 * (2^199 - 2^167 - 2^39 + 2^7), spread over five cells. *)
Definition delta1 (x64 : Z) : Z :=
  if 0 <? x64
  then Z.land (shl64 x64 7) bottom57BitsMask + twoPower57
       - Z.land (shl64 x64 39) bottom57BitsMask
  else 0.

Definition delta2 (x64 : Z) : Z :=
  if 0 <? x64
  then Z.shiftr x64 50 + bottom57BitsMask - Z.shiftr x64 18
  else 0.

Definition delta3 (x64 : Z) : Z :=
  if 0 <? x64
  then bottom57BitsMask - Z.land (shl64 x64 53) bottom57BitsMask
  else 0.

Definition delta4 (x64 : Z) : Z :=
  if 0 <? x64
  then bottom57BitsMask - Z.land (Z.shiftr x64 4) bottom57BitsMask
       + Z.land (shl64 x64 28) bottom57BitsMask
  else 0.

Definition delta5 (x64 : Z) : Z :=
  if 0 <? x64
  then Z.land (Z.shiftr x64 29) bottom29BitsMask - 1
  else 0.

(** Congruence modulo p. *)
Definition eqP (u v : Z) : Prop := u mod sm2P256_P = v mod sm2P256_P.
(** ** Elementary facts on the word operations *)

Lemma land_mask28 x : Z.land x bottom28BitsMask = x mod 2 ^ 28.
Proof. exact (Z.land_ones x 28 ltac:(lia)). Qed.

Lemma land_mask29 x : Z.land x bottom29BitsMask = x mod 2 ^ 29.
Proof. exact (Z.land_ones x 29 ltac:(lia)). Qed.

Lemma land_mask57 x : Z.land x bottom57BitsMask = x mod 2 ^ 57.
Proof. exact (Z.land_ones x 57 ltac:(lia)). Qed.

Lemma getBottom29Bits_mod x : 0 <= x -> getBottom29Bits x = x mod 2 ^ 29.
Proof.
  intros Hx. unfold getBottom29Bits, getBottomNBits, getBottomNBitsMask.
  simpl. rewrite land_mask29, Z.abs_eq by assumption.
  unfold u32, u64. Z.to_euclidean_division_equations. lia.
Qed.

Lemma getBottom28Bits_mod x : 0 <= x -> getBottom28Bits x = x mod 2 ^ 28.
Proof.
  intros Hx. unfold getBottom28Bits, getBottomNBits, getBottomNBitsMask.
  simpl. rewrite land_mask28, Z.abs_eq by assumption.
  unfold u32, u64. Z.to_euclidean_division_equations. lia.
Qed.

(** The weighted sum that [sm2P256ToBigPlain] computes. *)
Lemma sm2P256ToBigPlain_sum X :
  sm2P256ToBigPlain X =
    fe0 X + 2 ^ 29 * fe1 X + 2 ^ 57 * fe2 X + 2 ^ 86 * fe3 X
    + 2 ^ 114 * fe4 X + 2 ^ 143 * fe5 X + 2 ^ 171 * fe6 X
    + 2 ^ 200 * fe7 X + 2 ^ 228 * fe8 X.
Proof.
  unfold sm2P256ToBigPlain. cbv zeta.
  rewrite !Z.shiftl_mul_pow2 by lia. lia.
Qed.

Lemma sm2P256FromBigPlain_roundtrip x :
  0 <= x < 2 ^ 257 -> sm2P256ToBigPlain (sm2P256FromBigPlain x) = x.
Proof.
  intros Hx. rewrite sm2P256ToBigPlain_sum.
  unfold sm2P256FromBigPlain. cbv zeta. cbn [fe0 fe1 fe2 fe3 fe4 fe5 fe6 fe7 fe8].
  rewrite !Z.shiftr_div_pow2 by lia.
  assert (H1 : 0 <= x / 2 ^ 29) by (apply Z.div_pos; lia).
  assert (H2 : 0 <= x / 2 ^ 29 / 2 ^ 28) by (apply Z.div_pos; lia).
  assert (H3 : 0 <= x / 2 ^ 29 / 2 ^ 28 / 2 ^ 29) by (apply Z.div_pos; lia).
  assert (H4 : 0 <= x / 2 ^ 29 / 2 ^ 28 / 2 ^ 29 / 2 ^ 28) by (apply Z.div_pos; lia).
  assert (H5 : 0 <= x / 2 ^ 29 / 2 ^ 28 / 2 ^ 29 / 2 ^ 28 / 2 ^ 29)
    by (apply Z.div_pos; lia).
  assert (H6 : 0 <= x / 2 ^ 29 / 2 ^ 28 / 2 ^ 29 / 2 ^ 28 / 2 ^ 29 / 2 ^ 28)
    by (apply Z.div_pos; lia).
  assert (H7 : 0 <= x / 2 ^ 29 / 2 ^ 28 / 2 ^ 29 / 2 ^ 28 / 2 ^ 29 / 2 ^ 28 / 2 ^ 29)
    by (apply Z.div_pos; lia).
  assert (H8 : 0 <= x / 2 ^ 29 / 2 ^ 28 / 2 ^ 29 / 2 ^ 28 / 2 ^ 29 / 2 ^ 28 / 2 ^ 29 / 2 ^ 28)
    by (apply Z.div_pos; lia).
  rewrite !getBottom29Bits_mod, !getBottom28Bits_mod by lia.
  Z.to_euclidean_division_equations. lia.
Qed.

Lemma RInverse_spec : (2 ^ 257 * sm2P256_RInverse) mod sm2P256_P = 1.
Proof. reflexivity. Qed.

(** C4: for every integer x with 0 <= x < p, converting x to the 9-limb
    Montgomery form with [sm2P256FromBig] and back with [sm2P256ToBig]
    returns x. *)
Theorem FromBig_ToBig_roundtrip (x : Z) :
  0 <= x < sm2P256_P -> sm2P256ToBig (sm2P256FromBig x) = x.
Proof.
  intros Hx. unfold sm2P256ToBig, sm2P256FromBig. cbv zeta.
  assert (HP : 0 < sm2P256_P) by reflexivity.
  assert (HP' : sm2P256_P < 2 ^ 257) by reflexivity.
  pose proof (Z.mod_pos_bound (Z.shiftl x 257) sm2P256_P HP) as Hb.
  rewrite sm2P256FromBigPlain_roundtrip by lia.
  rewrite Z.shiftl_mul_pow2 by lia.
  rewrite Z.mul_mod_idemp_l by lia.
  rewrite <- Z.mul_assoc, <- Z.mul_mod_idemp_r by lia.
  rewrite RInverse_spec, Z.mul_1_r.
  apply Z.mod_small; lia.
Qed.

Lemma FromBig_ToBig_roundtrip_witness :
  0 <= sm2P256_Gx < sm2P256_P /\
  sm2P256ToBig (sm2P256FromBig sm2P256_Gx) = sm2P256_Gx.
Proof.
  split; [ unfold sm2P256_Gx, sm2P256_P; lia
         | apply (FromBig_ToBig_roundtrip sm2P256_Gx);
           unfold sm2P256_Gx, sm2P256_P; lia ].
Defined.

(** ** The carry table and [sm2P256ReduceCarry] *)

Ltac forward H :=
  repeat match type of H with
         | ?A -> _ =>
             let HA := fresh in
             assert (HA : A) by lia; specialize (H HA); clear HA
         end.

Lemma carry_cases c : 0 <= c <= 7 ->
  c = 0 \/ c = 1 \/ c = 2 \/ c = 3 \/ c = 4 \/ c = 5 \/ c = 6 \/ c = 7.
Proof. lia. Qed.

Ltac each_carry H :=
  apply carry_cases in H;
  destruct H as [H|[H|[H|[H|[H|[H|[H|H]]]]]]]; subst.

(** Every read of the carry table by [sm2P256ReduceCarry] is in range. *)
Lemma sm2P256Carry_index_in_range carry :
  0 <= carry <= 7 ->
  0 <= carry * 9 + 0 /\ carry * 9 + 7 < Z.of_nat (length sm2P256Carry).
Proof. simpl. lia. Qed.

Lemma carryRow_value carry :
  0 <= carry <= 7 ->
  sm2P256ToBigPlain (carryRow carry) = carry * (2 ^ 257 - 2 * sm2P256_P).
Proof. intros H. each_carry H; reflexivity. Qed.

Lemma carryRow_zero_cells carry :
  0 <= carry <= 7 ->
  fe1 (carryRow carry) = 0 /\ fe4 (carryRow carry) = 0 /\
  fe5 (carryRow carry) = 0 /\ fe6 (carryRow carry) = 0 /\
  fe8 (carryRow carry) = 0.
Proof. intros H. each_carry H; repeat split; reflexivity. Qed.

Lemma carryRow_bounds carry :
  0 <= carry <= 7 ->
  0 <= fe0 (carryRow carry) <= 14 /\
  0 <= fe2 (carryRow carry) <= 0x1FFFFF00 /\
  0 <= fe3 (carryRow carry) <= 0x37FF /\
  0 <= fe7 (carryRow carry) <= 0xE000000.
Proof. intros H. each_carry H; cbv; intuition discriminate. Qed.

(** The claim as worded fails: row 1 of the table does not hold 2 * 1 * p. *)
Lemma carryRow_not_2p :
  ~ (forall carry, 0 <= carry <= 7 ->
       sm2P256ToBigPlain (carryRow carry) = 2 * carry * sm2P256_P).
Proof. intros H. specialize (H 1 ltac:(lia)). discriminate H. Qed.

(** C7 (amended): for every carry in [0, 7], [sm2P256ReduceCarry] adds row
    [carry] of the table into cells 0, 2, 3 and 7 (with 32-bit wrap-around)
    and leaves cells 1, 4, 5, 6 and 8 alone; the row, read as a 9-limb
    number, is carry * (2^257 - 2p), that is the amount -2 * carry * p
    modulo 2^257, and its cells 1, 4, 5, 6 and 8 are zero. *)
Theorem ReduceCarry_adds_row (a : sm2P256FieldElement) (carry : Z) :
  0 <= carry <= 7 ->
  let r := sm2P256ReduceCarry a carry in
  let row := carryRow carry in
  (fe0 r = add32 (fe0 a) (fe0 row) /\ fe2 r = add32 (fe2 a) (fe2 row) /\
   fe3 r = add32 (fe3 a) (fe3 row) /\ fe7 r = add32 (fe7 a) (fe7 row)) /\
  (fe1 r = fe1 a /\ fe4 r = fe4 a /\ fe5 r = fe5 a /\ fe6 r = fe6 a /\
   fe8 r = fe8 a) /\
  (fe1 row = 0 /\ fe4 row = 0 /\ fe5 row = 0 /\ fe6 row = 0 /\ fe8 row = 0) /\
  sm2P256ToBigPlain row = carry * (2 ^ 257 - 2 * sm2P256_P).
Proof.
  intros H r row. subst r row. split; [|split; [|split]].
  - repeat split; reflexivity.
  - repeat split; reflexivity.
  - apply carryRow_zero_cells; assumption.
  - apply carryRow_value; assumption.
Qed.

Lemma ReduceCarry_adds_row_witness :
  0 <= 3 <= 7 /\
  sm2P256ToBigPlain (carryRow 3) = 3 * (2 ^ 257 - 2 * sm2P256_P).
Proof.
  split; [lia|].
  exact (proj2 (proj2 (proj2 (ReduceCarry_adds_row fe_zero 3 ltac:(lia))))).
Defined.

(** On limbs within their nominal widths no cell wraps, the value changes
    by the value of the row, and the result is within slack. *)
Lemma ReduceCarry_value a carry :
  nominal a -> 0 <= carry <= 7 ->
  sm2P256ToBigPlain (sm2P256ReduceCarry a carry)
    = sm2P256ToBigPlain a + carry * (2 ^ 257 - 2 * sm2P256_P)
  /\ in_slack (sm2P256ReduceCarry a carry).
Proof.
  intros Ha Hc. destruct a as [a0 a1 a2 a3 a4 a5 a6 a7 a8].
  unfold nominal in Ha. cbn [fe0 fe1 fe2 fe3 fe4 fe5 fe6 fe7 fe8] in Ha.
  pose proof (carryRow_value carry Hc) as Hv.
  pose proof (carryRow_zero_cells carry Hc) as Hz.
  pose proof (carryRow_bounds carry Hc) as Hb.
  rewrite sm2P256ToBigPlain_sum in Hv.
  rewrite !sm2P256ToBigPlain_sum.
  unfold in_slack, sm2P256ReduceCarry. cbv zeta.
  unfold carryRow in *. cbn [fe0 fe1 fe2 fe3 fe4 fe5 fe6 fe7 fe8] in *.
  generalize dependent (cell sm2P256Carry (carry * 9 + 0)).
  generalize dependent (cell sm2P256Carry (carry * 9 + 1)).
  generalize dependent (cell sm2P256Carry (carry * 9 + 2)).
  generalize dependent (cell sm2P256Carry (carry * 9 + 3)).
  generalize dependent (cell sm2P256Carry (carry * 9 + 4)).
  generalize dependent (cell sm2P256Carry (carry * 9 + 5)).
  generalize dependent (cell sm2P256Carry (carry * 9 + 6)).
  generalize dependent (cell sm2P256Carry (carry * 9 + 7)).
  generalize dependent (cell sm2P256Carry (carry * 9 + 8)).
  intros r8 r7 r6 r5 r4 r3 r2 r1 Hz r0 Hv Hb.
  unfold add32, u32, sm2P256_P in *.
  rewrite (Z.mod_small (a0 + r0)), (Z.mod_small (a2 + r2)),
    (Z.mod_small (a3 + r3)), (Z.mod_small (a7 + r7)) by lia.
  lia.
Qed.

(** ** Field addition and subtraction *)

Ltac bits_arith :=
  rewrite ?land_mask28, ?land_mask29, ?land_mask57;
  rewrite ?Z.shiftr_div_pow2, ?Z.shiftl_mul_pow2 by lia.

Lemma addLimb29_spec x y c :
  0 <= x < 2 ^ 30 -> 0 <= y < 2 ^ 30 -> 0 <= c < 8 ->
  fst (addLimb29 x y c) + 2 ^ 29 * snd (addLimb29 x y c) = x + y + c /\
  0 <= fst (addLimb29 x y c) < 2 ^ 29 /\ 0 <= snd (addLimb29 x y c) < 8.
Proof.
  intros. unfold addLimb29, add32, u32. cbv zeta. cbn [fst snd]. bits_arith.
  rewrite (Z.mod_small (x + y)) by lia.
  rewrite (Z.mod_small (x + y + c)) by lia.
  Z.to_euclidean_division_equations. lia.
Qed.

Lemma addLimb28_spec x y c :
  0 <= x < 2 ^ 29 -> 0 <= y < 2 ^ 29 -> 0 <= c < 8 ->
  fst (addLimb28 x y c) + 2 ^ 28 * snd (addLimb28 x y c) = x + y + c /\
  0 <= fst (addLimb28 x y c) < 2 ^ 28 /\ 0 <= snd (addLimb28 x y c) < 8.
Proof.
  intros. unfold addLimb28, add32, u32. cbv zeta. cbn [fst snd]. bits_arith.
  rewrite (Z.mod_small (x + y)) by lia.
  rewrite (Z.mod_small (x + y + c)) by lia.
  Z.to_euclidean_division_equations. lia.
Qed.

Lemma sub_add_add32 x y z c :
  0 <= x - y + z -> x - y + z + c < 2 ^ 32 -> 0 <= c ->
  add32 (add32 (sub32 x y) z) c = x - y + z + c.
Proof.
  intros. unfold add32, sub32, u32.
  Z.to_euclidean_division_equations. lia.
Qed.

Lemma subLimb29_spec x y z c :
  0 <= x < 2 ^ 30 -> 0 <= y < 2 ^ 30 -> 2 ^ 30 <= z < 2 ^ 31 + 2 ^ 29 ->
  0 <= c < 8 ->
  fst (subLimb29 x y z c) + 2 ^ 29 * snd (subLimb29 x y z c) = x - y + z + c /\
  0 <= fst (subLimb29 x y z c) < 2 ^ 29 /\ 0 <= snd (subLimb29 x y z c) < 8.
Proof.
  intros. unfold subLimb29. cbv zeta. cbn [fst snd].
  rewrite sub_add_add32 by lia. bits_arith.
  Z.to_euclidean_division_equations. lia.
Qed.

Lemma subLimb28_spec x y z c :
  0 <= x < 2 ^ 29 -> 0 <= y < 2 ^ 29 -> 2 ^ 29 <= z < 2 ^ 30 ->
  0 <= c < 8 ->
  fst (subLimb28 x y z c) + 2 ^ 28 * snd (subLimb28 x y z c) = x - y + z + c /\
  0 <= fst (subLimb28 x y z c) < 2 ^ 28 /\ 0 <= snd (subLimb28 x y z c) < 8.
Proof.
  intros. unfold subLimb28. cbv zeta. cbn [fst snd].
  rewrite sub_add_add32 by lia. bits_arith.
  Z.to_euclidean_division_equations. lia.
Qed.

(** Takes the next limb step of the goal apart, with its specification. *)
Ltac limb_step lem :=
  match goal with
  | |- context [ match ?f ?x ?y ?c with pair _ _ => _ end ] =>
      let H := fresh "L" in
      pose proof (lem x y c) as H; forward H;
      let l := fresh "l" in let k := fresh "k" in
      destruct (f x y c) as [l k]; cbn [fst snd] in H
  end.

Ltac limb_step4 lem :=
  match goal with
  | |- context [ match ?f ?x ?y ?z ?c with pair _ _ => _ end ] =>
      let H := fresh "L" in
      pose proof (lem x y z c) as H; forward H;
      let l := fresh "l" in let k := fresh "k" in
      destruct (f x y z c) as [l k]; cbn [fst snd] in H
  end.

Lemma Add_value a b :
  in_slack a -> in_slack b ->
  in_slack (sm2P256Add a b) /\
  exists k, 0 <= k <= 7 /\
    sm2P256ToBigPlain (sm2P256Add a b)
      = sm2P256ToBigPlain a + sm2P256ToBigPlain b - 2 * k * sm2P256_P.
Proof.
  intros Ha Hb.
  destruct a as [a0 a1 a2 a3 a4 a5 a6 a7 a8].
  destruct b as [b0 b1 b2 b3 b4 b5 b6 b7 b8].
  unfold in_slack in Ha, Hb. cbn [fe0 fe1 fe2 fe3 fe4 fe5 fe6 fe7 fe8] in Ha, Hb.
  unfold sm2P256Add. cbv zeta. cbn [fe0 fe1 fe2 fe3 fe4 fe5 fe6 fe7 fe8].
  limb_step addLimb29_spec. limb_step addLimb28_spec.
  limb_step addLimb29_spec. limb_step addLimb28_spec.
  limb_step addLimb29_spec. limb_step addLimb28_spec.
  limb_step addLimb29_spec. limb_step addLimb28_spec.
  limb_step addLimb29_spec.
  match goal with
  | |- context [ sm2P256ReduceCarry ?c ?k ] =>
      destruct (ReduceCarry_value c k) as [Hv Hs];
      [ unfold nominal; cbn [fe0 fe1 fe2 fe3 fe4 fe5 fe6 fe7 fe8]; lia
      | lia | split; [exact Hs|exists k; split; [lia|]; rewrite Hv] ]
  end.
  rewrite !sm2P256ToBigPlain_sum. cbn [fe0 fe1 fe2 fe3 fe4 fe5 fe6 fe7 fe8].
  unfold sm2P256_P. lia.
Qed.

Lemma Zero31_value : sm2P256ToBigPlain sm2P256Zero31 = 8 * sm2P256_P.
Proof. reflexivity. Qed.

Lemma Sub_value a b :
  in_slack a -> in_slack b ->
  in_slack (sm2P256Sub a b) /\
  exists k, 0 <= k <= 7 /\
    sm2P256ToBigPlain (sm2P256Sub a b)
      = sm2P256ToBigPlain a - sm2P256ToBigPlain b + 8 * sm2P256_P
        - 2 * k * sm2P256_P.
Proof.
  intros Ha Hb.
  destruct a as [a0 a1 a2 a3 a4 a5 a6 a7 a8].
  destruct b as [b0 b1 b2 b3 b4 b5 b6 b7 b8].
  unfold in_slack in Ha, Hb. cbn [fe0 fe1 fe2 fe3 fe4 fe5 fe6 fe7 fe8] in Ha, Hb.
  unfold sm2P256Sub. cbv zeta.
  unfold sm2P256Zero31. cbn [fe0 fe1 fe2 fe3 fe4 fe5 fe6 fe7 fe8].
  limb_step4 subLimb29_spec. limb_step4 subLimb28_spec.
  limb_step4 subLimb29_spec. limb_step4 subLimb28_spec.
  limb_step4 subLimb29_spec. limb_step4 subLimb28_spec.
  limb_step4 subLimb29_spec. limb_step4 subLimb28_spec.
  limb_step4 subLimb29_spec.
  match goal with
  | |- context [ sm2P256ReduceCarry ?c ?k ] =>
      destruct (ReduceCarry_value c k) as [Hv Hs];
      [ unfold nominal; cbn [fe0 fe1 fe2 fe3 fe4 fe5 fe6 fe7 fe8]; lia
      | lia | split; [exact Hs|exists k; split; [lia|]; rewrite Hv] ]
  end.
  rewrite !sm2P256ToBigPlain_sum. cbn [fe0 fe1 fe2 fe3 fe4 fe5 fe6 fe7 fe8].
  unfold sm2P256_P. lia.
Qed.

(** *** Values modulo p *)

Lemma P_pos : 0 < sm2P256_P.
Proof. reflexivity. Qed.

Lemma mod_P_sub_multiple x k :
  (x - k * sm2P256_P) mod sm2P256_P = x mod sm2P256_P.
Proof.
  replace (x - k * sm2P256_P) with (x + (- k) * sm2P256_P) by ring.
  apply Z.mod_add. pose proof P_pos; lia.
Qed.

Lemma ToBig_congr X v :
  (sm2P256ToBigPlain X - v) mod sm2P256_P = 0 ->
  sm2P256ToBig X = (v * sm2P256_RInverse) mod sm2P256_P.
Proof.
  intros H. unfold sm2P256ToBig. cbv zeta.
  pose proof P_pos.
  apply Z.mod_divide in H; [|lia]. destruct H as [q Hq].
  replace (sm2P256ToBigPlain X) with (v + q * sm2P256_P) by lia.
  replace ((v + q * sm2P256_P) * sm2P256_RInverse)
    with (v * sm2P256_RInverse + (q * sm2P256_RInverse) * sm2P256_P) by ring.
  apply Z.mod_add. lia.
Qed.

Lemma ToBig_Add a b :
  in_slack a -> in_slack b ->
  sm2P256ToBig (sm2P256Add a b)
    = (sm2P256ToBig a + sm2P256ToBig b) mod sm2P256_P.
Proof.
  intros Ha Hb. destruct (Add_value a b Ha Hb) as [_ [k [_ Hk]]].
  pose proof P_pos.
  rewrite (ToBig_congr _ (sm2P256ToBigPlain a + sm2P256ToBigPlain b)).
  - unfold sm2P256ToBig. cbv zeta.
    rewrite <- Z.add_mod by lia. f_equal. ring.
  - rewrite Hk.
    replace (sm2P256ToBigPlain a + sm2P256ToBigPlain b - 2 * k * sm2P256_P
             - (sm2P256ToBigPlain a + sm2P256ToBigPlain b))
      with ((- (2 * k)) * sm2P256_P) by ring.
    apply Z.mod_mul. lia.
Qed.

Lemma ToBig_Sub a b :
  in_slack a -> in_slack b ->
  sm2P256ToBig (sm2P256Sub a b)
    = (sm2P256ToBig a - sm2P256ToBig b) mod sm2P256_P.
Proof.
  intros Ha Hb. destruct (Sub_value a b Ha Hb) as [_ [k [_ Hk]]].
  pose proof P_pos.
  rewrite (ToBig_congr _ (sm2P256ToBigPlain a - sm2P256ToBigPlain b)).
  - unfold sm2P256ToBig. cbv zeta.
    rewrite <- Zminus_mod. f_equal. ring.
  - rewrite Hk.
    replace (sm2P256ToBigPlain a - sm2P256ToBigPlain b + 8 * sm2P256_P
             - 2 * k * sm2P256_P
             - (sm2P256ToBigPlain a - sm2P256ToBigPlain b))
      with ((8 - 2 * k) * sm2P256_P) by ring.
    apply Z.mod_mul. lia.
Qed.

(** ** The wide product of [sm2P256Mul] and [sm2P256Square] *)

Lemma mul_bound x y n m :
  0 <= n -> 0 <= m -> 0 <= x < 2 ^ n -> 0 <= y < 2 ^ m ->
  0 <= x * y < 2 ^ (n + m).
Proof.
  intros Hn Hm Hx Hy. rewrite Z.pow_add_r by assumption. nia.
Qed.

Lemma shl64_1 t : shl64 t 1 = u64 (2 * t).
Proof.
  unfold shl64. rewrite Z.shiftl_mul_pow2 by lia. f_equal. ring.
Qed.

Lemma mul64_shl64_1 x y : mul64 x (shl64 y 1) = u64 (2 * (x * y)).
Proof.
  rewrite shl64_1. unfold mul64, u64.
  rewrite Z.mul_mod_idemp_r by lia. f_equal. ring.
Qed.

Lemma LFE_ext x0 x1 x2 x3 x4 x5 x6 x7 x8 x9 x10 x11 x12 x13 x14 x15 x16 y0 y1 y2 y3 y4 y5 y6 y7 y8 y9 y10 y11 y12 y13 y14 y15 y16 :
  x0 = y0 -> x1 = y1 -> x2 = y2 -> x3 = y3 -> x4 = y4 -> x5 = y5 -> x6 = y6 -> x7 = y7 -> x8 = y8 -> x9 = y9 -> x10 = y10 -> x11 = y11 -> x12 = y12 -> x13 = y13 -> x14 = y14 -> x15 = y15 -> x16 = y16 ->
  LFE x0 x1 x2 x3 x4 x5 x6 x7 x8 x9 x10 x11 x12 x13 x14 x15 x16 = LFE y0 y1 y2 y3 y4 y5 y6 y7 y8 y9 y10 y11 y12 y13 y14 y15 y16.
Proof. intros; subst; reflexivity. Qed.

(** Removes the innermost reduction modulo 2^64, its argument being in
    range. *)
Ltac kill_mod :=
  repeat match goal with
         | |- context [ ?e mod 2 ^ 64 ] =>
             lazymatch e with
             | context [ _ mod _ ] => fail
             | _ => rewrite (Z.mod_small e (2 ^ 64)) by lia
             end
         end.

(** Replaces every product of two variables by a variable, so that only
    linear facts are left. *)
Ltac hide_products :=
  repeat match goal with
         | |- context [ ?x * ?y ] =>
             is_var x; is_var y;
             let p := fresh "p" in
             set (p := x * y) in *; clearbody p
         | H : context [ ?x * ?y ] |- _ =>
             is_var x; is_var y;
             let p := fresh "p" in
             set (p := x * y) in *; clearbody p
         end.

Section WideProduct.

Variables a0 a1 a2 a3 a4 a5 a6 a7 a8 : Z.
Variables b0 b1 b2 b3 b4 b5 b6 b7 b8 : Z.
Let a := FE a0 a1 a2 a3 a4 a5 a6 a7 a8.
Let b := FE b0 b1 b2 b3 b4 b5 b6 b7 b8.
Hypothesis Ha : in_slack a.
Hypothesis Hb : in_slack b.

Local Lemma products :
  0 <= a0 * b0 < 2 ^ 60 /\
  0 <= a0 * b1 < 2 ^ 59 /\
  0 <= a0 * b2 < 2 ^ 60 /\
  0 <= a0 * b3 < 2 ^ 59 /\
  0 <= a0 * b4 < 2 ^ 60 /\
  0 <= a0 * b5 < 2 ^ 59 /\
  0 <= a0 * b6 < 2 ^ 60 /\
  0 <= a0 * b7 < 2 ^ 59 /\
  0 <= a0 * b8 < 2 ^ 60 /\
  0 <= a1 * b0 < 2 ^ 59 /\
  0 <= a1 * b1 < 2 ^ 58 /\
  0 <= a1 * b2 < 2 ^ 59 /\
  0 <= a1 * b3 < 2 ^ 58 /\
  0 <= a1 * b4 < 2 ^ 59 /\
  0 <= a1 * b5 < 2 ^ 58 /\
  0 <= a1 * b6 < 2 ^ 59 /\
  0 <= a1 * b7 < 2 ^ 58 /\
  0 <= a1 * b8 < 2 ^ 59 /\
  0 <= a2 * b0 < 2 ^ 60 /\
  0 <= a2 * b1 < 2 ^ 59 /\
  0 <= a2 * b2 < 2 ^ 60 /\
  0 <= a2 * b3 < 2 ^ 59 /\
  0 <= a2 * b4 < 2 ^ 60 /\
  0 <= a2 * b5 < 2 ^ 59 /\
  0 <= a2 * b6 < 2 ^ 60 /\
  0 <= a2 * b7 < 2 ^ 59 /\
  0 <= a2 * b8 < 2 ^ 60 /\
  0 <= a3 * b0 < 2 ^ 59 /\
  0 <= a3 * b1 < 2 ^ 58 /\
  0 <= a3 * b2 < 2 ^ 59 /\
  0 <= a3 * b3 < 2 ^ 58 /\
  0 <= a3 * b4 < 2 ^ 59 /\
  0 <= a3 * b5 < 2 ^ 58 /\
  0 <= a3 * b6 < 2 ^ 59 /\
  0 <= a3 * b7 < 2 ^ 58 /\
  0 <= a3 * b8 < 2 ^ 59 /\
  0 <= a4 * b0 < 2 ^ 60 /\
  0 <= a4 * b1 < 2 ^ 59 /\
  0 <= a4 * b2 < 2 ^ 60 /\
  0 <= a4 * b3 < 2 ^ 59 /\
  0 <= a4 * b4 < 2 ^ 60 /\
  0 <= a4 * b5 < 2 ^ 59 /\
  0 <= a4 * b6 < 2 ^ 60 /\
  0 <= a4 * b7 < 2 ^ 59 /\
  0 <= a4 * b8 < 2 ^ 60 /\
  0 <= a5 * b0 < 2 ^ 59 /\
  0 <= a5 * b1 < 2 ^ 58 /\
  0 <= a5 * b2 < 2 ^ 59 /\
  0 <= a5 * b3 < 2 ^ 58 /\
  0 <= a5 * b4 < 2 ^ 59 /\
  0 <= a5 * b5 < 2 ^ 58 /\
  0 <= a5 * b6 < 2 ^ 59 /\
  0 <= a5 * b7 < 2 ^ 58 /\
  0 <= a5 * b8 < 2 ^ 59 /\
  0 <= a6 * b0 < 2 ^ 60 /\
  0 <= a6 * b1 < 2 ^ 59 /\
  0 <= a6 * b2 < 2 ^ 60 /\
  0 <= a6 * b3 < 2 ^ 59 /\
  0 <= a6 * b4 < 2 ^ 60 /\
  0 <= a6 * b5 < 2 ^ 59 /\
  0 <= a6 * b6 < 2 ^ 60 /\
  0 <= a6 * b7 < 2 ^ 59 /\
  0 <= a6 * b8 < 2 ^ 60 /\
  0 <= a7 * b0 < 2 ^ 59 /\
  0 <= a7 * b1 < 2 ^ 58 /\
  0 <= a7 * b2 < 2 ^ 59 /\
  0 <= a7 * b3 < 2 ^ 58 /\
  0 <= a7 * b4 < 2 ^ 59 /\
  0 <= a7 * b5 < 2 ^ 58 /\
  0 <= a7 * b6 < 2 ^ 59 /\
  0 <= a7 * b7 < 2 ^ 58 /\
  0 <= a7 * b8 < 2 ^ 59 /\
  0 <= a8 * b0 < 2 ^ 60 /\
  0 <= a8 * b1 < 2 ^ 59 /\
  0 <= a8 * b2 < 2 ^ 60 /\
  0 <= a8 * b3 < 2 ^ 59 /\
  0 <= a8 * b4 < 2 ^ 60 /\
  0 <= a8 * b5 < 2 ^ 59 /\
  0 <= a8 * b6 < 2 ^ 60 /\
  0 <= a8 * b7 < 2 ^ 59 /\
  0 <= a8 * b8 < 2 ^ 60.
Proof.
  unfold in_slack, a, b in Ha, Hb.
  cbn [fe0 fe1 fe2 fe3 fe4 fe5 fe6 fe7 fe8] in Ha, Hb.
  repeat split;
    match goal with
    | |- 0 <= ?x * ?y => apply Z.mul_nonneg_nonneg; lia
    | |- ?x * ?y < 2 ^ 60 => apply (mul_bound x y 30 30); lia
    | |- ?x * ?y < 2 ^ 59 =>
        first [ apply (mul_bound x y 30 29); lia
              | apply (mul_bound x y 29 30); lia ]
    | |- ?x * ?y < 2 ^ 58 => apply (mul_bound x y 29 29); lia
    end.
Qed.

Local Lemma squares :
  0 <= a0 * a0 < 2 ^ 60 /\
  0 <= a0 * a1 < 2 ^ 59 /\
  0 <= a0 * a2 < 2 ^ 60 /\
  0 <= a0 * a3 < 2 ^ 59 /\
  0 <= a0 * a4 < 2 ^ 60 /\
  0 <= a0 * a5 < 2 ^ 59 /\
  0 <= a0 * a6 < 2 ^ 60 /\
  0 <= a0 * a7 < 2 ^ 59 /\
  0 <= a0 * a8 < 2 ^ 60 /\
  0 <= a1 * a1 < 2 ^ 58 /\
  0 <= a1 * a2 < 2 ^ 59 /\
  0 <= a1 * a3 < 2 ^ 58 /\
  0 <= a1 * a4 < 2 ^ 59 /\
  0 <= a1 * a5 < 2 ^ 58 /\
  0 <= a1 * a6 < 2 ^ 59 /\
  0 <= a1 * a7 < 2 ^ 58 /\
  0 <= a1 * a8 < 2 ^ 59 /\
  0 <= a2 * a2 < 2 ^ 60 /\
  0 <= a2 * a3 < 2 ^ 59 /\
  0 <= a2 * a4 < 2 ^ 60 /\
  0 <= a2 * a5 < 2 ^ 59 /\
  0 <= a2 * a6 < 2 ^ 60 /\
  0 <= a2 * a7 < 2 ^ 59 /\
  0 <= a2 * a8 < 2 ^ 60 /\
  0 <= a3 * a3 < 2 ^ 58 /\
  0 <= a3 * a4 < 2 ^ 59 /\
  0 <= a3 * a5 < 2 ^ 58 /\
  0 <= a3 * a6 < 2 ^ 59 /\
  0 <= a3 * a7 < 2 ^ 58 /\
  0 <= a3 * a8 < 2 ^ 59 /\
  0 <= a4 * a4 < 2 ^ 60 /\
  0 <= a4 * a5 < 2 ^ 59 /\
  0 <= a4 * a6 < 2 ^ 60 /\
  0 <= a4 * a7 < 2 ^ 59 /\
  0 <= a4 * a8 < 2 ^ 60 /\
  0 <= a5 * a5 < 2 ^ 58 /\
  0 <= a5 * a6 < 2 ^ 59 /\
  0 <= a5 * a7 < 2 ^ 58 /\
  0 <= a5 * a8 < 2 ^ 59 /\
  0 <= a6 * a6 < 2 ^ 60 /\
  0 <= a6 * a7 < 2 ^ 59 /\
  0 <= a6 * a8 < 2 ^ 60 /\
  0 <= a7 * a7 < 2 ^ 58 /\
  0 <= a7 * a8 < 2 ^ 59 /\
  0 <= a8 * a8 < 2 ^ 60.
Proof.
  unfold in_slack, a in Ha. cbn [fe0 fe1 fe2 fe3 fe4 fe5 fe6 fe7 fe8] in Ha.
  repeat split;
    match goal with
    | |- 0 <= ?x * ?y => apply Z.mul_nonneg_nonneg; lia
    | |- ?x * ?y < 2 ^ 60 => apply (mul_bound x y 30 30); lia
    | |- ?x * ?y < 2 ^ 59 =>
        first [ apply (mul_bound x y 30 29); lia
              | apply (mul_bound x y 29 30); lia ]
    | |- ?x * ?y < 2 ^ 58 => apply (mul_bound x y 29 29); lia
    end.
Qed.


(** No operation of [sm2P256Mul] wraps: cell k of the wide product is the
    sum of the a[i] * b[j] with i + j = k, those with i and j both odd
    counted twice. *)
Lemma Mul_tmp_exact :
  sm2P256Mul_tmp a b =
  LFE (a0 * b0)
      (a0 * b1 + a1 * b0)
      (a0 * b2 + 2 * (a1 * b1) + a2 * b0)
      (a0 * b3 + a1 * b2 + a2 * b1 + a3 * b0)
      (a0 * b4 + 2 * (a1 * b3) + a2 * b2 + 2 * (a3 * b1) + a4 * b0)
      (a0 * b5 + a1 * b4 + a2 * b3 + a3 * b2 + a4 * b1 + a5 * b0)
      (a0 * b6 + 2 * (a1 * b5) + a2 * b4 + 2 * (a3 * b3) + a4 * b2 + 2 * (a5 * b1) + a6 * b0)
      (a0 * b7 + a1 * b6 + a2 * b5 + a3 * b4 + a4 * b3 + a5 * b2 + a6 * b1 + a7 * b0)
      (a0 * b8 + 2 * (a1 * b7) + a2 * b6 + 2 * (a3 * b5) + a4 * b4 + 2 * (a5 * b3) + a6 * b2 + 2 * (a7 * b1) + a8 * b0)
      (a1 * b8 + a2 * b7 + a3 * b6 + a4 * b5 + a5 * b4 + a6 * b3 + a7 * b2 + a8 * b1)
      (a2 * b8 + 2 * (a3 * b7) + a4 * b6 + 2 * (a5 * b5) + a6 * b4 + 2 * (a7 * b3) + a8 * b2)
      (a3 * b8 + a4 * b7 + a5 * b6 + a6 * b5 + a7 * b4 + a8 * b3)
      (a4 * b8 + 2 * (a5 * b7) + a6 * b6 + 2 * (a7 * b5) + a8 * b4)
      (a5 * b8 + a6 * b7 + a7 * b6 + a8 * b5)
      (a6 * b8 + 2 * (a7 * b7) + a8 * b6)
      (a7 * b8 + a8 * b7)
      (a8 * b8).
Proof.
  pose proof products as HP.
  unfold sm2P256Mul_tmp, a, b. cbv zeta.
  cbn [fe0 fe1 fe2 fe3 fe4 fe5 fe6 fe7 fe8].
  rewrite ?mul64_shl64_1, ?shl64_1.
  unfold mul64, add64, u64.
  clear Ha Hb. hide_products.
  apply LFE_ext; kill_mod; ring.
Qed.

Lemma Square_tmp_exact :
  sm2P256Square_tmp a =
  LFE (a0 * a0)
      (2 * (a0 * a1))
      (2 * (a0 * a2) + 2 * (a1 * a1))
      (2 * (a0 * a3) + 2 * (a1 * a2))
      (2 * (a0 * a4) + 4 * (a1 * a3) + a2 * a2)
      (2 * (a0 * a5) + 2 * (a1 * a4) + 2 * (a2 * a3))
      (2 * (a0 * a6) + 4 * (a1 * a5) + 2 * (a2 * a4) + 2 * (a3 * a3))
      (2 * (a0 * a7) + 2 * (a1 * a6) + 2 * (a2 * a5) + 2 * (a3 * a4))
      (2 * (a0 * a8) + 4 * (a1 * a7) + 2 * (a2 * a6) + 4 * (a3 * a5) + a4 * a4)
      (2 * (a1 * a8) + 2 * (a2 * a7) + 2 * (a3 * a6) + 2 * (a4 * a5))
      (2 * (a2 * a8) + 4 * (a3 * a7) + 2 * (a4 * a6) + 2 * (a5 * a5))
      (2 * (a3 * a8) + 2 * (a4 * a7) + 2 * (a5 * a6))
      (2 * (a4 * a8) + 4 * (a5 * a7) + a6 * a6)
      (2 * (a5 * a8) + 2 * (a6 * a7))
      (2 * (a6 * a8) + 2 * (a7 * a7))
      (2 * (a7 * a8))
      (a8 * a8).
Proof.
  pose proof squares as HP.
  unfold sm2P256Square_tmp, a. cbv zeta.
  cbn [fe0 fe1 fe2 fe3 fe4 fe5 fe6 fe7 fe8].
  rewrite ?mul64_shl64_1, ?shl64_1.
  unfold mul64, add64, u64.
  clear Ha Hb. hide_products.
  apply LFE_ext; kill_mod; ring.
Qed.

Lemma Mul_tmp_spec :
  lfe_bounded (sm2P256Mul_tmp a b) /\
  lfe_value (sm2P256Mul_tmp a b) = sm2P256ToBigPlain a * sm2P256ToBigPlain b.
Proof.
  rewrite Mul_tmp_exact. pose proof products as HP.
  unfold lfe_bounded, lfe_value. rewrite !sm2P256ToBigPlain_sum.
  unfold a, b.
  cbn [fe0 fe1 fe2 fe3 fe4 fe5 fe6 fe7 fe8 lf0 lf1 lf2 lf3 lf4 lf5 lf6 lf7
       lf8 lf9 lf10 lf11 lf12 lf13 lf14 lf15 lf16].
  split; [clear Ha Hb; hide_products; lia | ring].
Qed.

End WideProduct.

Lemma Square_tmp_Mul_tmp x :
  in_slack x -> sm2P256Square_tmp x = sm2P256Mul_tmp x x.
Proof.
  intros Hx. destruct x as [x0 x1 x2 x3 x4 x5 x6 x7 x8].
  rewrite Square_tmp_exact, Mul_tmp_exact by assumption.
  apply LFE_ext; ring.
Qed.

(** ** [sm2P256FromLargeElement] *)

Lemma shl29_mask57 b :
  0 <= b < 2 ^ 64 ->
  Z.land (shl64 b 29) bottom57BitsMask = 2 ^ 29 * (b mod 2 ^ 28).
Proof.
  intros Hb. rewrite land_mask57. unfold shl64, u64.
  rewrite Z.shiftl_mul_pow2 by lia.
  Z.to_euclidean_division_equations. lia.
Qed.

Lemma packFirst_spec b0 b1 :
  0 <= b0 < 2 ^ 63 -> 0 <= b1 < 2 ^ 63 ->
  fst (packFirst b0 b1) + 2 ^ 57 * snd (packFirst b0 b1)
    = b0 + 2 ^ 29 * (b1 mod 2 ^ 28) /\
  0 <= fst (packFirst b0 b1) < 2 ^ 57 /\ 0 <= snd (packFirst b0 b1) < 2 ^ 7.
Proof.
  intros H0 H1. unfold packFirst. cbv zeta. cbn [fst snd].
  rewrite shl29_mask57 by lia. rewrite land_mask57.
  rewrite Z.shiftr_div_pow2 by lia. unfold add64, u64.
  assert (Hm : 0 <= b1 mod 2 ^ 28 < 2 ^ 28) by (apply Z.mod_pos_bound; lia).
  rewrite (Z.mod_small (b0 + 2 ^ 29 * (b1 mod 2 ^ 28))) by lia.
  generalize dependent (b1 mod 2 ^ 28). intros m Hm.
  Z.to_euclidean_division_equations. lia.
Qed.

Lemma packLimb_spec carry bprev beven bodd :
  0 <= carry < 2 ^ 7 -> 0 <= bprev < 2 ^ 63 -> 0 <= beven < 2 ^ 63 ->
  0 <= bodd < 2 ^ 63 ->
  fst (packLimb carry bprev beven bodd)
    + 2 ^ 57 * snd (packLimb carry bprev beven bodd)
    = carry + bprev / 2 ^ 28 + beven + 2 ^ 29 * (bodd mod 2 ^ 28) /\
  0 <= fst (packLimb carry bprev beven bodd) < 2 ^ 57 /\
  0 <= snd (packLimb carry bprev beven bodd) < 2 ^ 7.
Proof.
  intros Hc Hp He Ho. unfold packLimb. cbv zeta. cbn [fst snd].
  rewrite shl29_mask57 by lia. rewrite land_mask57.
  rewrite !Z.shiftr_div_pow2 by lia. unfold add64, u64.
  assert (Hm : 0 <= bodd mod 2 ^ 28 < 2 ^ 28) by (apply Z.mod_pos_bound; lia).
  assert (Hd : 0 <= bprev / 2 ^ 28 < 2 ^ 35).
  { split; [apply Z.div_pos; lia | apply Z.div_lt_upper_bound; lia]. }
  generalize dependent (bodd mod 2 ^ 28). intros m Hm.
  generalize dependent (bprev / 2 ^ 28). intros d Hd.
  rewrite (Z.mod_small (carry + d)) by lia.
  rewrite (Z.mod_small (carry + d + beven)) by lia.
  rewrite (Z.mod_small (carry + d + beven + 2 ^ 29 * m)) by lia.
  Z.to_euclidean_division_equations. lia.
Qed.

Ltac pack_step :=
  match goal with
  | |- context [ match packLimb ?c ?p ?e ?o with pair _ _ => _ end ] =>
      let H := fresh "L" in
      pose proof (packLimb_spec c p e o) as H; forward H;
      let l := fresh "l" in let k := fresh "k" in
      destruct (packLimb c p e o) as [l k]; cbn [fst snd] in H
  end.

(** The repacked buffer stands for the same number, with cells 0 to 7
    below 2^57, cell 8 below 2^60 + 2^34 and cell 9 zero. *)
Lemma FromLargeElement_spec b :
  lfe_bounded b ->
  tmp64_value (sm2P256FromLargeElement b) = lfe_value b /\
  (0 <= t0 (sm2P256FromLargeElement b) < 2 ^ 57 /\
   0 <= t1 (sm2P256FromLargeElement b) < 2 ^ 57 /\
   0 <= t2 (sm2P256FromLargeElement b) < 2 ^ 57 /\
   0 <= t3 (sm2P256FromLargeElement b) < 2 ^ 57 /\
   0 <= t4 (sm2P256FromLargeElement b) < 2 ^ 57 /\
   0 <= t5 (sm2P256FromLargeElement b) < 2 ^ 57 /\
   0 <= t6 (sm2P256FromLargeElement b) < 2 ^ 57 /\
   0 <= t7 (sm2P256FromLargeElement b) < 2 ^ 57 /\
   0 <= t8 (sm2P256FromLargeElement b) < 2 ^ 60 + 2 ^ 34 /\
   t9 (sm2P256FromLargeElement b) = 0).
Proof.
  intros Hb.
  destruct b as [b0 b1 b2 b3 b4 b5 b6 b7 b8 b9 b10 b11 b12 b13 b14 b15 b16].
  unfold lfe_bounded in Hb. unfold lfe_value, sm2P256FromLargeElement.
  cbn [lf0 lf1 lf2 lf3 lf4 lf5 lf6 lf7 lf8 lf9 lf10 lf11 lf12 lf13 lf14 lf15
       lf16] in *.
  cbv zeta.
  match goal with
  | |- context [ match packFirst ?x ?y with pair _ _ => _ end ] =>
      pose proof (packFirst_spec x y) as L0; forward L0;
      destruct (packFirst x y) as [l0 k0]; cbn [fst snd] in L0
  end.
  do 7 pack_step.
  unfold tmp64_value. cbn [t0 t1 t2 t3 t4 t5 t6 t7 t8 t9].
  rewrite Z.shiftr_div_pow2 by lia. unfold add64, u64.
  assert (Hd : 0 <= b15 / 2 ^ 28 < 2 ^ 33).
  { split; [apply Z.div_pos; lia | apply Z.div_lt_upper_bound; lia]. }
  rewrite (Z.mod_small (k6 + b15 / 2 ^ 28)) by lia.
  rewrite (Z.mod_small (k6 + b15 / 2 ^ 28 + b16)) by lia.
  Z.to_euclidean_division_equations. lia.
Qed.

(** ** The rounds of [sm2P256ReduceDegree] *)

Lemma u64_add64 s d : add64 (u64 s) d = u64 (s + d).
Proof. unfold add64, u64. apply Zplus_mod_idemp_l. Qed.

Lemma u64_sub64 s d : sub64 (u64 s) d = u64 (s - d).
Proof. unfold sub64, u64. apply Zminus_mod_idemp_l. Qed.

Lemma u64_small s : 0 <= s < 2 ^ 64 -> u64 s = s.
Proof. intros H. unfold u64. apply Z.mod_small. exact H. Qed.

Lemma u64_congr s s' : s = s' -> u64 s = u64 s'.
Proof. intros ->. reflexivity. Qed.

(** One guarded round, on cells given by integers modulo 2^64. *)
Lemma reduceGuard_eq x s1 s2 s3 s4 s5 :
  reduceGuard x (u64 s1, u64 s2, u64 s3, u64 s4, u64 s5)
  = (u64 (s1 + delta1 x), u64 (s2 + delta2 x), u64 (s3 + delta3 x),
     u64 (s4 + delta4 x), u64 (s5 + delta5 x)).
Proof.
  unfold reduceGuard, delta1, delta2, delta3, delta4, delta5.
  destruct (0 <? x).
  - unfold reduceRound. cbv zeta.
    rewrite !u64_add64, !u64_sub64, !u64_add64, ?u64_sub64, ?u64_add64.
    repeat match goal with |- (_, _) = (_, _) => apply f_equal2 end;
      apply u64_congr; ring.
  - rewrite !Z.add_0_r. reflexivity.
Qed.

Lemma shl_mask57 x k :
  0 <= x < 2 ^ 57 -> 0 <= k <= 57 ->
  Z.land (shl64 x k) bottom57BitsMask = (x * 2 ^ k) mod 2 ^ 57.
Proof.
  intros Hx Hk. rewrite land_mask57. unfold shl64, u64.
  rewrite Z.shiftl_mul_pow2 by lia.
  assert (E : 2 ^ 64 = 2 ^ 57 * 2 ^ 7) by reflexivity.
  rewrite E. rewrite Z.rem_mul_r by lia.
  rewrite Z.mul_comm with (n := 2 ^ 57), Z.mod_add by lia.
  apply Z.mod_mod. lia.
Qed.

Lemma delta_facts x :
  0 <= x < 2 ^ 57 ->
  delta1 x + 2 ^ 57 * delta2 x + 2 ^ 114 * delta3 x + 2 ^ 171 * delta4 x
    + 2 ^ 228 * delta5 x = x * (2 ^ 199 - 2 ^ 167 - 2 ^ 39 + 2 ^ 7) /\
  0 <= delta1 x <= 2 ^ 58 /\ 0 <= delta2 x <= 2 ^ 57 + 2 ^ 7 /\
  0 <= delta3 x <= 2 ^ 57 /\ 0 <= delta4 x <= 2 ^ 58 /\
  -1 <= delta5 x /\ 2 ^ 29 * delta5 x <= x /\
  (delta5 x = -1 -> 2 ^ 57 + 1 <= delta4 x).
Proof.
  intros Hx. unfold delta1, delta2, delta3, delta4, delta5.
  destruct (0 <? x) eqn:E; [apply Z.ltb_lt in E | lia].
  rewrite !shl_mask57 by lia.
  rewrite !Z.shiftr_div_pow2 by lia.
  rewrite land_mask57, land_mask29.
  unfold twoPower57, bottom57BitsMask.
  Z.to_euclidean_division_equations. lia.
Qed.

Lemma round_step sj s1 s2 s3 s4 s5 :
  0 <= sj < 2 ^ 64 ->
  reduceGuard (Z.land (u64 sj) bottom57BitsMask)
    (add64 (u64 s1) (Z.shiftr (u64 sj) 57), u64 s2, u64 s3, u64 s4, u64 s5)
  = (u64 (s1 + sj / 2 ^ 57 + delta1 (sj mod 2 ^ 57)),
     u64 (s2 + delta2 (sj mod 2 ^ 57)), u64 (s3 + delta3 (sj mod 2 ^ 57)),
     u64 (s4 + delta4 (sj mod 2 ^ 57)), u64 (s5 + delta5 (sj mod 2 ^ 57))).
Proof.
  intros H. rewrite (u64_small sj H), land_mask57.
  rewrite Z.shiftr_div_pow2 by lia. rewrite u64_add64.
  apply reduceGuard_eq.
Qed.

Lemma last_round_step sj s1 s2 s3 s4 s5 :
  0 <= sj < 2 ^ 64 ->
  reduceGuard (Z.land (u64 sj) bottom29BitsMask)
    (u64 s1, u64 s2, u64 s3, u64 s4, u64 s5)
  = (u64 (s1 + delta1 (sj mod 2 ^ 29)),
     u64 (s2 + delta2 (sj mod 2 ^ 29)), u64 (s3 + delta3 (sj mod 2 ^ 29)),
     u64 (s4 + delta4 (sj mod 2 ^ 29)), u64 (s5 + delta5 (sj mod 2 ^ 29))).
Proof.
  intros H. rewrite (u64_small sj H), land_mask29.
  apply reduceGuard_eq.
Qed.

Lemma clear_low29 sj :
  0 <= sj < 2 ^ 64 ->
  shl64 (Z.shiftr (u64 sj) 29) 29 = 2 ^ 29 * (sj / 2 ^ 29).
Proof.
  intros H. rewrite (u64_small sj H). unfold shl64, u64.
  rewrite Z.shiftr_div_pow2, Z.shiftl_mul_pow2 by lia.
  rewrite Z.mod_small; [ring|].
  Z.to_euclidean_division_equations. lia.
Qed.

(** Names the quotient, the remainder and the five increments of the
    round whose extracted word is [sj mod 2^k]. *)
Ltac name_round sj k x c d1 d2 d3 d4 d5 Hx Hc Hd :=
  assert (Hx : 0 <= sj mod 2 ^ k < 2 ^ k) by (apply Z.mod_pos_bound; lia);
  assert (Hc : sj = 2 ^ k * (sj / 2 ^ k) + sj mod 2 ^ k)
    by (apply Z.div_mod; lia);
  assert (Hd := delta_facts (sj mod 2 ^ k));
  forward Hd;
  set (x := sj mod 2 ^ k) in *; set (c := sj / 2 ^ k) in *;
  set (d1 := delta1 x) in *; set (d2 := delta2 x) in *;
  set (d3 := delta3 x) in *; set (d4 := delta4 x) in *;
  set (d5 := delta5 x) in *;
  clearbody d1 d2 d3 d4 d5; clearbody c; clearbody x.

(** The five rounds: the cells 4 to 8 that [sm2P256DivideByR] reads stand
    for (value + m * p) / 2^228, cell 4 a multiple of 2^29; a cell 5 to 8
    may be all ones (the integer -1), and then the cell below it holds at
    least 2^57. *)
Lemma reduceRounds_spec t :
  0 <= t0 t < 2 ^ 57 -> 0 <= t1 t < 2 ^ 57 -> 0 <= t2 t < 2 ^ 57 ->
  0 <= t3 t < 2 ^ 57 -> 0 <= t4 t < 2 ^ 57 -> 0 <= t5 t < 2 ^ 57 ->
  0 <= t6 t < 2 ^ 57 -> 0 <= t7 t < 2 ^ 57 ->
  0 <= t8 t < 2 ^ 60 + 2 ^ 34 -> t9 t = 0 ->
  exists l0 l1 l2 l3 h4 S5 S6 S7 S8 m,
    reduceRounds t
    = T64 l0 l1 l2 l3 (2 ^ 29 * h4) (u64 S5) (u64 S6) (u64 S7) (u64 S8) 0 /\
    0 <= h4 < 2 ^ 32 - 2 ^ 29 /\
    -1 <= S5 < 2 ^ 61 - 2 ^ 58 /\ -1 <= S6 < 2 ^ 61 - 2 ^ 58 /\
    -1 <= S7 < 2 ^ 61 - 2 ^ 58 /\ -1 <= S8 < 2 ^ 61 - 2 ^ 58 /\
    (S5 = -1 -> 2 ^ 28 <= h4) /\ (S6 = -1 -> 2 ^ 57 <= S5) /\
    (S7 = -1 -> 2 ^ 57 <= S6) /\ (S8 = -1 -> 2 ^ 57 <= S7) /\
    0 <= m < 2 ^ 257 /\
    2 ^ 257 * (h4 + 2 ^ 28 * S5 + 2 ^ 85 * S6 + 2 ^ 142 * S7 + 2 ^ 199 * S8)
    = tmp64_value t + m * sm2P256_P.
Proof.
  destruct t as [a0 a1 a2 a3 a4 a5 a6 a7 a8 a9].
  unfold tmp64_value. cbn [t0 t1 t2 t3 t4 t5 t6 t7 t8 t9].
  intros H0 H1 H2 H3 H4 H5 H6 H7 H8 H9. subst a9.
  remember (reduceRounds (T64 a0 a1 a2 a3 a4 a5 a6 a7 a8 0)) as r eqn:Er.
  rewrite <- (u64_small a0), <- (u64_small a1), <- (u64_small a2),
    <- (u64_small a3), <- (u64_small a4), <- (u64_small a5),
    <- (u64_small a6), <- (u64_small a7), <- (u64_small a8),
    <- (u64_small 0) in Er by lia.
  unfold reduceRounds in Er. cbv beta iota zeta in Er.
  rewrite round_step in Er by lia.
  name_round a0 57 x0 c0 d10 d20 d30 d40 d50 Hx0 Hc0 Hd0.
  cbv beta iota in Er.
  rewrite round_step in Er by lia.
  name_round (a1 + c0 + d10) 57 x1 c1 d11 d21 d31 d41 d51 Hx1 Hc1 Hd1.
  cbv beta iota in Er.
  rewrite round_step in Er by lia.
  name_round (a2 + d20 + c1 + d11) 57 x2 c2 d12 d22 d32 d42 d52 Hx2 Hc2 Hd2.
  cbv beta iota in Er.
  rewrite round_step in Er by lia.
  name_round (a3 + d30 + d21 + c2 + d12) 57
    x3 c3 d13 d23 d33 d43 d53 Hx3 Hc3 Hd3.
  cbv beta iota in Er.
  rewrite last_round_step, clear_low29 in Er by lia.
  name_round (a4 + d40 + d31 + d22 + c3 + d13) 29
    x4 h4 d14 d24 d34 d44 d54 Hx4 Hc4 Hd4.
  cbv beta iota in Er.
  assert (Hm : 0 <= x0 + 2 ^ 57 * x1 + 2 ^ 114 * x2 + 2 ^ 171 * x3
               + 2 ^ 228 * x4 < 2 ^ 257) by lia.
  assert (D : d54 = -1 \/ d54 = 0) by lia.
  destruct D as [D|D]; rewrite D in Er.
  - change (add64 (u64 (0 + -1)) 1 =? 0) with true in Er.
    cbv beta iota in Er. rewrite u64_sub64 in Er.
    eexists _, _, _, _, h4, _, _, _, _,
      (x0 + 2 ^ 57 * x1 + 2 ^ 114 * x2 + 2 ^ 171 * x3 + 2 ^ 228 * x4).
    split; [exact Er|].
    unfold twoPower57, sm2P256_P. clear Er.
    repeat split; try lia.
  - change (add64 (u64 (0 + 0)) 1 =? 0) with false in Er.
    cbv beta iota in Er. change (u64 (0 + 0)) with 0 in Er.
    eexists _, _, _, _, h4, _, _, _, _,
      (x0 + 2 ^ 57 * x1 + 2 ^ 114 * x2 + 2 ^ 171 * x3 + 2 ^ 228 * x4).
    split; [exact Er|].
    unfold sm2P256_P. clear Er.
    repeat split; try lia.
Qed.

(** ** [sm2P256DivideByR] *)

(** The three fields that [sm2P256DivideByR] reads of a cell, the cell
    given by an integer that may be -1. *)
Lemma lane_bits S :
  -1 <= S < 2 ^ 61 ->
  Z.land (u32 (shl64 (u64 S) 28)) bottom29BitsMask = 2 ^ 28 * (S mod 2) /\
  Z.land (u32 (Z.shiftr (u64 S) 1)) bottom28BitsMask = (S / 2) mod 2 ^ 28 /\
  u32 (Z.shiftr (u64 S) 29) = u32 (S / 2 ^ 29).
Proof.
  intros H. assert (C : S = -1 \/ 0 <= S) by lia. destruct C as [->|C].
  - vm_compute. auto.
  - rewrite u64_small by lia. rewrite land_mask29, land_mask28.
    rewrite !Z.shiftr_div_pow2 by lia. unfold shl64, u32, u64.
    rewrite Z.shiftl_mul_pow2 by lia. change (2 ^ 1) with 2.
    repeat split.
    + Z.to_euclidean_division_equations. lia.
    + Z.to_euclidean_division_equations. lia.
Qed.

Lemma lane_split S :
  S = S mod 2 + 2 * ((S / 2) mod 2 ^ 28) + 2 ^ 29 * (S / 2 ^ 29) /\
  0 <= S mod 2 <= 1 /\ 0 <= (S / 2) mod 2 ^ 28 < 2 ^ 28.
Proof. Z.to_euclidean_division_equations. lia. Qed.

Lemma divFirst_spec h4 S5 :
  0 <= h4 < 2 ^ 32 - 2 ^ 29 -> -1 <= S5 < 2 ^ 61 ->
  (S5 = -1 -> 2 ^ 28 <= h4) ->
  0 <= fst (divFirst (2 ^ 29 * h4) (u64 S5)) < 2 ^ 29 /\
  0 <= snd (divFirst (2 ^ 29 * h4) (u64 S5)) <= 7 /\
  (S5 = -1 -> 1 <= snd (divFirst (2 ^ 29 * h4) (u64 S5))) /\
  fst (divFirst (2 ^ 29 * h4) (u64 S5))
    + 2 ^ 29 * snd (divFirst (2 ^ 29 * h4) (u64 S5))
  = h4 + 2 ^ 28 * (S5 mod 2).
Proof.
  intros Hh HS Hi. unfold divFirst. cbv zeta. cbn [fst snd].
  destruct (lane_bits S5 HS) as (-> & _ & _).
  destruct (lane_split S5) as (E & Hlo & _).
  assert (M : S5 = -1 -> S5 mod 2 = 1) by (intros ->; reflexivity).
  generalize dependent (S5 mod 2). intros lo _ Hlo M.
  rewrite Z.shiftr_div_pow2 by lia.
  rewrite Z.mul_comm, Z.div_mul by lia.
  unfold add32. rewrite land_mask29, Z.shiftr_div_pow2 by lia.
  unfold u32. rewrite (Z.mod_small h4) by lia.
  rewrite (Z.mod_small (h4 + 2 ^ 28 * lo)) by lia.
  Z.to_euclidean_division_equations. lia.
Qed.

(** Two cells of the result: the odd one from the middle of buffer cell
    [S], the even one from its top and the lowest bit of the next. *)
Lemma divPair_spec S S1 c :
  -1 <= S < 2 ^ 61 - 2 ^ 58 -> -1 <= S1 < 2 ^ 61 ->
  0 <= c <= 7 -> (S = -1 -> 1 <= c) -> (S1 = -1 -> 2 ^ 57 <= S) ->
  forall ao c' ae c'',
  divOdd (u64 S) c = (ao, c') ->
  divEven (u64 S) (u64 S1) c' = (ae, c'') ->
  0 <= ao < 2 ^ 28 /\ 0 <= ae < 2 ^ 29 /\ 0 <= c'' <= 7 /\
  (S1 = -1 -> 1 <= c'') /\
  2 * (ao + 2 ^ 28 * ae + 2 ^ 57 * c'') + S mod 2
  = 2 * c + S + 2 ^ 57 * (S1 mod 2).
Proof.
  intros HS HS1 Hc Hi Hi1 ao c' ae c''. unfold divOdd, divEven. cbv zeta.
  destruct (lane_bits S) as (_ & -> & ->); [lia|].
  destruct (lane_bits S1 HS1) as (-> & _ & _).
  destruct (lane_split S) as (E & Hlo & Hmid).
  destruct (lane_split S1) as (_ & Hlo1 & _).
  assert (M : S1 = -1 -> S1 mod 2 = 1) by (intros ->; reflexivity).
  assert (Hhi : -1 <= S / 2 ^ 29 < 2 ^ 32 - 2 ^ 29)
    by (Z.to_euclidean_division_equations; lia).
  assert (Hhi1 : 2 ^ 57 <= S -> 2 ^ 28 <= S / 2 ^ 29)
    by (Z.to_euclidean_division_equations; lia).
  assert (Hm1 : S = -1 -> (S / 2) mod 2 ^ 28 = 2 ^ 28 - 1 /\ S / 2 ^ 29 = -1)
    by (intros ->; split; reflexivity).
  generalize dependent (S1 mod 2). intros lo1 Hlo1 M.
  generalize dependent (S mod 2). generalize dependent ((S / 2) mod 2 ^ 28).
  generalize dependent (S / 2 ^ 29). intros hi Hhi Hhi1 mid Hmid Hm1 lo E Hlo.
  unfold add32. rewrite land_mask28, land_mask29.
  rewrite !Z.shiftr_div_pow2 by lia. unfold u32.
  rewrite (Zplus_mod_idemp_l hi). rewrite Zplus_mod_idemp_l.
  rewrite (Z.mod_small (mid + c)) by lia.
  assert (Hc' : 0 <= (mid + c) / 2 ^ 28 <= 1 /\
                (S = -1 -> 1 <= (mid + c) / 2 ^ 28)).
  { split; [|intros HH; destruct (Hm1 HH) as [Hq _]; specialize (Hi HH)];
      Z.to_euclidean_division_equations; lia. }
  assert (Ha : 0 <= (mid + c) mod 2 ^ 28 < 2 ^ 28 /\
    mid + c = 2 ^ 28 * ((mid + c) / 2 ^ 28) + (mid + c) mod 2 ^ 28).
  { split; [apply Z.mod_pos_bound; lia | apply Z.div_mod; lia]. }
  set (q := (mid + c) / 2 ^ 28) in *. set (r := (mid + c) mod 2 ^ 28) in *.
  clearbody q r.
  intros E1 E2. apply pair_equal_spec in E1. destruct E1 as [<- <-].
  rewrite (Z.mod_small (hi + q + 2 ^ 28 * lo1)) in E2
    by (assert (S = -1 \/ 0 <= S) as [HH|HH] by lia;
        [destruct (Hm1 HH); specialize (Hi HH) | ]; lia).
  apply pair_equal_spec in E2. destruct E2 as [<- <-].
  assert (S = -1 \/ 0 <= S) as [HH|HH] by lia.
  - destruct (Hm1 HH). specialize (Hi HH).
    Z.to_euclidean_division_equations. lia.
  - assert (0 <= hi) by lia. Z.to_euclidean_division_equations. lia.
Qed.

Ltac div_pair S S1 c ao c' ae c'' HP :=
  let E1 := fresh "E" in let E2 := fresh "E" in
  destruct (divOdd (u64 S) c) as [ao c'] eqn:E1;
  destruct (divEven (u64 S) (u64 S1) c') as [ae c''] eqn:E2;
  pose proof (divPair_spec S S1 c) as HP; forward HP;
  specialize (HP ao c' ae c'' E1 E2); clear E1 E2.

(** On the cells that the rounds leave, the division by R = 2^257 is exact:
    limbs of nominal width, a carry of at most 7. *)
Lemma DivideByR_spec l0 l1 l2 l3 h4 S5 S6 S7 S8 :
  0 <= h4 < 2 ^ 32 - 2 ^ 29 ->
  -1 <= S5 < 2 ^ 61 - 2 ^ 58 -> -1 <= S6 < 2 ^ 61 - 2 ^ 58 ->
  -1 <= S7 < 2 ^ 61 - 2 ^ 58 -> -1 <= S8 < 2 ^ 61 - 2 ^ 58 ->
  (S5 = -1 -> 2 ^ 28 <= h4) -> (S6 = -1 -> 2 ^ 57 <= S5) ->
  (S7 = -1 -> 2 ^ 57 <= S6) -> (S8 = -1 -> 2 ^ 57 <= S7) ->
  forall a carry,
  sm2P256DivideByR
    (T64 l0 l1 l2 l3 (2 ^ 29 * h4) (u64 S5) (u64 S6) (u64 S7) (u64 S8) 0)
  = (a, carry) ->
  nominal a /\ 0 <= carry <= 7 /\
  sm2P256ToBigPlain a + 2 ^ 257 * carry
  = h4 + 2 ^ 28 * S5 + 2 ^ 85 * S6 + 2 ^ 142 * S7 + 2 ^ 199 * S8.
Proof.
  intros Hh H5 H6 H7 H8 I5 I6 I7 I8 a carry.
  unfold sm2P256DivideByR. cbn [t4 t5 t6 t7 t8 t9].
  change (divEven (u64 S8) 0) with (divEven (u64 S8) (u64 0)).
  pose proof (divFirst_spec h4 S5) as HF. forward HF.
  destruct (divFirst (2 ^ 29 * h4) (u64 S5)) as [a0 c1]. cbn [fst snd] in HF.
  div_pair S5 S6 c1 a1 c2 a2 c3 P5. div_pair S6 S7 c3 a3 c4 a4 c5 P6.
  div_pair S7 S8 c5 a5 c6 a6 c7 P7. div_pair S8 0 c7 a7 c8 a8 c9 P8.
  intros E. apply pair_equal_spec in E. destruct E as [<- <-].
  rewrite sm2P256ToBigPlain_sum. unfold nominal.
  cbn [fe0 fe1 fe2 fe3 fe4 fe5 fe6 fe7 fe8].
  change (0 mod 2) with 0 in *.
  generalize dependent (S5 mod 2). generalize dependent (S6 mod 2).
  generalize dependent (S7 mod 2). generalize dependent (S8 mod 2).
  intros. repeat split; lia.
Qed.

(** ** [sm2P256ReduceDegree], [sm2P256Mul] and [sm2P256Square] *)

(** Montgomery reduction: the result, within slack, times R = 2^257 is the
    value of the wide element modulo p. *)
Lemma ReduceDegree_spec b :
  lfe_bounded b ->
  in_slack (sm2P256ReduceDegree b) /\
  (sm2P256ToBigPlain (sm2P256ReduceDegree b) * 2 ^ 257 - lfe_value b)
    mod sm2P256_P = 0.
Proof.
  intros Hb. unfold sm2P256ReduceDegree. cbv zeta.
  destruct (FromLargeElement_spec b Hb)
    as (Hv & B0 & B1 & B2 & B3 & B4 & B5 & B6 & B7 & B8 & B9).
  destruct (reduceRounds_spec (sm2P256FromLargeElement b))
    as (l0 & l1 & l2 & l3 & h4 & S5 & S6 & S7 & S8 & m & Er & Hh & H5 & H6
        & H7 & H8 & I5 & I6 & I7 & I8 & Hm & Hval); try assumption.
  rewrite Er. rewrite Hv in Hval.
  destruct (sm2P256DivideByR _) as [a carry] eqn:Ed.
  destruct (DivideByR_spec l0 l1 l2 l3 h4 S5 S6 S7 S8 Hh H5 H6 H7 H8
              I5 I6 I7 I8 a carry Ed) as (Hn & Hc & Hd).
  destruct (ReduceCarry_value a carry Hn Hc) as (HR & Hs).
  split; [exact Hs|]. rewrite HR.
  replace ((sm2P256ToBigPlain a + carry * (2 ^ 257 - 2 * sm2P256_P))
           * 2 ^ 257 - lfe_value b)
    with ((m - 2 ^ 258 * carry) * sm2P256_P)
    by (unfold sm2P256_P in *; lia).
  apply Z.mod_mul. pose proof P_pos. lia.
Qed.

Lemma mod_P_eq u v :
  (u - v) mod sm2P256_P = 0 -> u mod sm2P256_P = v mod sm2P256_P.
Proof.
  intros H. pose proof P_pos.
  apply Z.mod_divide in H; [|lia]. destruct H as [q Hq].
  replace u with (v + q * sm2P256_P) by lia. apply Z.mod_add. lia.
Qed.

Lemma mod_P_zero u v :
  u mod sm2P256_P = v mod sm2P256_P -> (u - v) mod sm2P256_P = 0.
Proof.
  intros H. pose proof P_pos.
  rewrite Zminus_mod, H, Z.sub_diag. reflexivity.
Qed.

(** [sm2P256ToBig] multiplies by the inverse of R: times R it gives the
    plain value back, modulo p. *)
Lemma ToBig_times_R X :
  (sm2P256ToBig X * 2 ^ 257) mod sm2P256_P
  = sm2P256ToBigPlain X mod sm2P256_P.
Proof.
  pose proof P_pos. unfold sm2P256ToBig. cbv zeta.
  rewrite Z.mul_mod_idemp_l by lia.
  replace (sm2P256ToBigPlain X * sm2P256_RInverse * 2 ^ 257)
    with (sm2P256ToBigPlain X * (2 ^ 257 * sm2P256_RInverse)) by ring.
  rewrite <- Z.mul_mod_idemp_r, RInverse_spec by lia.
  rewrite Z.mul_1_r. reflexivity.
Qed.

(** If the plain value of [X], times R, is congruent to [v], then [X]
    stands for [v] times the square of the inverse of R. *)
Lemma ToBig_reduced X v :
  (sm2P256ToBigPlain X * 2 ^ 257 - v) mod sm2P256_P = 0 ->
  sm2P256ToBig X
  = (v * sm2P256_RInverse * sm2P256_RInverse) mod sm2P256_P.
Proof.
  intros H. pose proof P_pos.
  apply Z.mod_divide in H; [|lia]. destruct H as [q Hq].
  assert (Hk : exists k, 2 ^ 257 * sm2P256_RInverse = 1 + k * sm2P256_P).
  { exists ((2 ^ 257 * sm2P256_RInverse) / sm2P256_P). reflexivity. }
  destruct Hk as [k Hk].
  unfold sm2P256ToBig. cbv zeta.
  set (x := sm2P256ToBigPlain X) in *.
  set (r := sm2P256_RInverse) in *. set (p := sm2P256_P) in *.
  assert (E : x * r = v * r * r + (q * r * r - k * x * r) * p).
  { transitivity (x * r * (2 ^ 257 * r - k * p)).
    - rewrite Hk. ring.
    - replace (x * r * (2 ^ 257 * r - k * p))
        with ((x * 2 ^ 257 - v) * r * r + v * r * r - k * x * r * p) by ring.
      rewrite Hq. ring. }
  rewrite E. apply Z.mod_add. lia.
Qed.

Lemma ToBig_product a b :
  (sm2P256ToBig a * sm2P256ToBig b) mod sm2P256_P
  = (sm2P256ToBigPlain a * sm2P256ToBigPlain b * sm2P256_RInverse
     * sm2P256_RInverse) mod sm2P256_P.
Proof.
  pose proof P_pos. unfold sm2P256ToBig. cbv zeta.
  rewrite <- Z.mul_mod by lia. f_equal. ring.
Qed.

(** Field multiplication in Montgomery form, for limbs within slack. *)
Lemma Mul_value a b :
  in_slack a -> in_slack b ->
  in_slack (sm2P256Mul a b) /\
  sm2P256ToBig (sm2P256Mul a b)
  = (sm2P256ToBig a * sm2P256ToBig b) mod sm2P256_P.
Proof.
  intros Ha Hb.
  destruct a as [a0 a1 a2 a3 a4 a5 a6 a7 a8].
  destruct b as [b0 b1 b2 b3 b4 b5 b6 b7 b8].
  destruct (Mul_tmp_spec a0 a1 a2 a3 a4 a5 a6 a7 a8 b0 b1 b2 b3 b4 b5 b6 b7
              b8 Ha Hb) as [Hbd Hval].
  unfold sm2P256Mul.
  destruct (ReduceDegree_spec _ Hbd) as [Hs Hr].
  split; [exact Hs|].
  rewrite Hval in Hr. rewrite (ToBig_reduced _ _ Hr).
  symmetry. apply ToBig_product.
Qed.

Lemma Square_Mul a : in_slack a -> sm2P256Square a = sm2P256Mul a a.
Proof.
  intros Ha. unfold sm2P256Square, sm2P256Mul.
  rewrite Square_tmp_Mul_tmp by exact Ha. reflexivity.
Qed.

Lemma Square_value a :
  in_slack a ->
  in_slack (sm2P256Square a) /\
  sm2P256ToBig (sm2P256Square a)
  = (sm2P256ToBig a * sm2P256ToBig a) mod sm2P256_P.
Proof.
  intros Ha. rewrite Square_Mul by exact Ha. apply Mul_value; exact Ha.
Qed.

(** C2: for all field elements a and b whose limbs are within the slack of
    the representation (one bit above the nominal width of each limb),
    [sm2P256Mul], the 17-cell schoolbook product followed by
    [sm2P256ReduceDegree], gives an element c with limbs within slack and
    ToBig(c) = ToBig(a) * ToBig(b) mod p. *)
Theorem sm2P256Mul_correct a b :
  in_slack a -> in_slack b ->
  in_slack (sm2P256Mul a b) /\
  sm2P256ToBig (sm2P256Mul a b)
  = (sm2P256ToBig a * sm2P256ToBig b) mod sm2P256_P.
Proof.
  intros Ha Hb.
  destruct a as [a0 a1 a2 a3 a4 a5 a6 a7 a8].
  destruct b as [b0 b1 b2 b3 b4 b5 b6 b7 b8].
  destruct (Mul_tmp_spec a0 a1 a2 a3 a4 a5 a6 a7 a8 b0 b1 b2 b3 b4 b5 b6 b7
              b8 Ha Hb) as [Hbd Hval].
  unfold sm2P256Mul.
  destruct (ReduceDegree_spec _ Hbd) as [Hs Hr].
  split; [exact Hs|].
  rewrite Hval in Hr. rewrite (ToBig_reduced _ _ Hr).
  symmetry. apply ToBig_product.
Qed.

Lemma sm2P256Mul_correct_witness :
  in_slack sm2P256_gx /\ in_slack sm2P256_gy /\
  sm2P256ToBig (sm2P256Mul sm2P256_gx sm2P256_gy)
  = (sm2P256ToBig sm2P256_gx * sm2P256ToBig sm2P256_gy) mod sm2P256_P.
Proof.
  assert (Hx : in_slack sm2P256_gx) by (vm_compute; repeat split; discriminate).
  assert (Hy : in_slack sm2P256_gy) by (vm_compute; repeat split; discriminate).
  split; [exact Hx|]. split; [exact Hy|].
  exact (proj2 (sm2P256Mul_correct sm2P256_gx sm2P256_gy Hx Hy)).
Defined.

(** ** The two-way routines *)

(** The carry of [sm2P256DivideByR] is the top of a 32-bit word shifted by
    29, whatever the buffer holds. *)
Lemma DivideByR_carry_range t : 0 <= snd (sm2P256DivideByR t) <= 7.
Proof.
  unfold sm2P256DivideByR.
  destruct (divFirst _ _) as [a0 c1]. destruct (divOdd _ c1) as [a1 c2].
  destruct (divEven _ _ c2) as [a2 c3]. destruct (divOdd _ c3) as [a3 c4].
  destruct (divEven _ _ c4) as [a4 c5]. destruct (divOdd _ c5) as [a5 c6].
  destruct (divEven _ _ c6) as [a6 c7]. destruct (divOdd _ c7) as [a7 c8].
  destruct (divEven (t8 t) (t9 t) c8) as [a8 c9] eqn:E. cbn [snd].
  unfold divEven in E. cbv zeta in E.
  apply pair_equal_spec in E. destruct E as [_ <-].
  rewrite Z.shiftr_div_pow2 by lia. unfold add32, u32.
  Z.to_euclidean_division_equations. lia.
Qed.

(** Two carries packed in one 64-bit word come out of its halves. *)
Lemma carries_unpacked c c2 :
  0 <= c <= 7 -> 0 <= c2 <= 7 ->
  u32 (Z.lor (u64 c) (shl64 c2 32)) = c /\
  u32 (Z.shiftr (Z.lor (u64 c) (shl64 c2 32)) 32) = c2.
Proof.
  intros Hc Hc2.
  destruct (carry_cases c Hc) as [->|[->|[->|[->|[->|[->|[->| ->]]]]]]];
    destruct (carry_cases c2 Hc2) as [->|[->|[->|[->|[->|[->|[->| ->]]]]]]];
    split; reflexivity.
Qed.

Lemma ReduceDegree2Way_eq b b2 :
  sm2P256ReduceDegree2Way b b2
  = (sm2P256ReduceDegree b, sm2P256ReduceDegree b2).
Proof.
  unfold sm2P256ReduceDegree2Way, _sm2ReduceDegree_2way, sm2P256ReduceDegree.
  cbv zeta.
  pose proof (DivideByR_carry_range (reduceRounds (sm2P256FromLargeElement b)))
    as H1.
  pose proof (DivideByR_carry_range
                (reduceRounds (sm2P256FromLargeElement b2))) as H2.
  destruct (sm2P256DivideByR (reduceRounds (sm2P256FromLargeElement b)))
    as [a carry].
  destruct (sm2P256DivideByR (reduceRounds (sm2P256FromLargeElement b2)))
    as [a2 carry2].
  cbn [snd] in H1, H2.
  destruct (carries_unpacked carry carry2 H1 H2) as [-> ->]. reflexivity.
Qed.

Lemma Mul2Way_eq a1 b1 a2 b2 :
  sm2P256Mul2Way a1 b1 a2 b2 = (sm2P256Mul a1 b1, sm2P256Mul a2 b2).
Proof.
  unfold sm2P256Mul2Way, sm2P256Mul. rewrite <- ReduceDegree2Way_eq.
  unfold _sm2P256Mul2Way1, _sm2P256Mul2Way2, set_lf8, sm2P256Mul_tmp.
  cbv zeta.
  cbn [lf0 lf1 lf2 lf3 lf4 lf5 lf6 lf7 lf8 lf9 lf10 lf11 lf12 lf13 lf14 lf15
       lf16].
  reflexivity.
Qed.

Lemma Square2Way_eq a a2 :
  sm2P256Square2Way a a2 = (sm2P256Square a, sm2P256Square a2).
Proof.
  unfold sm2P256Square2Way, sm2P256Square, _sm2P256Square2Way.
  cbv zeta. apply ReduceDegree2Way_eq.
Qed.

(** C8: for all field elements the two-way routines give what two
    one-way calls give: [sm2P256Mul2Way] returns (Mul(a1, b1), Mul(a2, b2))
    and [sm2P256Square2Way] returns (Square(a), Square(a2)).  The assembly
    kernels behind the wrappers are modelled from the spec. *)
Theorem two_way_equals_sequential a1 b1 a2 b2 :
  sm2P256Mul2Way a1 b1 a2 b2 = (sm2P256Mul a1 b1, sm2P256Mul a2 b2) /\
  sm2P256Square2Way a1 a2 = (sm2P256Square a1, sm2P256Square a2).
Proof.
  split.
  - apply Mul2Way_eq.
  - apply Square2Way_eq.
Qed.

(** ** Values of field expressions *)

Lemma getBottom29Bits_range x : 0 <= getBottom29Bits x < 2 ^ 29.
Proof.
  unfold getBottom29Bits, getBottomNBits, getBottomNBitsMask. simpl.
  rewrite land_mask29. apply Z.mod_pos_bound. lia.
Qed.

Lemma getBottom28Bits_range x : 0 <= getBottom28Bits x < 2 ^ 28.
Proof.
  unfold getBottom28Bits, getBottomNBits, getBottomNBitsMask. simpl.
  rewrite land_mask28. apply Z.mod_pos_bound. lia.
Qed.

Lemma FromBigPlain_nominal x : nominal (sm2P256FromBigPlain x).
Proof.
  unfold sm2P256FromBigPlain, nominal. cbv zeta.
  cbn [fe0 fe1 fe2 fe3 fe4 fe5 fe6 fe7 fe8].
  repeat split;
    first [apply getBottom29Bits_range | apply getBottom28Bits_range].
Qed.

Lemma nominal_in_slack a : nominal a -> in_slack a.
Proof. unfold nominal, in_slack. lia. Qed.

Lemma FromBig_slack x : in_slack (sm2P256FromBig x).
Proof. apply nominal_in_slack. apply FromBigPlain_nominal. Qed.

Lemma ToBig_FromBig x :
  0 <= x < sm2P256_P -> sm2P256ToBig (sm2P256FromBig x) = x.
Proof.
  intros Hx. unfold sm2P256ToBig, sm2P256FromBig. cbv zeta.
  pose proof P_pos as HP.
  assert (HP' : sm2P256_P < 2 ^ 257) by reflexivity.
  pose proof (Z.mod_pos_bound (Z.shiftl x 257) sm2P256_P HP) as Hb.
  rewrite sm2P256FromBigPlain_roundtrip by lia.
  rewrite Z.shiftl_mul_pow2 by lia.
  rewrite Z.mul_mod_idemp_l by lia.
  rewrite <- Z.mul_assoc, <- Z.mul_mod_idemp_r by lia.
  rewrite RInverse_spec, Z.mul_1_r.
  apply Z.mod_small; lia.
Qed.

Lemma ToBig_range a : 0 <= sm2P256ToBig a < sm2P256_P.
Proof.
  unfold sm2P256ToBig. cbv zeta. apply Z.mod_pos_bound. apply P_pos.
Qed.

Lemma Mul_slack a b : in_slack a -> in_slack b -> in_slack (sm2P256Mul a b).
Proof. intros Ha Hb. apply Mul_value; assumption. Qed.

Lemma Square_slack a : in_slack a -> in_slack (sm2P256Square a).
Proof. intros Ha. apply Square_value; assumption. Qed.

Lemma Add_slack a b : in_slack a -> in_slack b -> in_slack (sm2P256Add a b).
Proof. intros Ha Hb. apply Add_value; assumption. Qed.

Lemma Sub_slack a b : in_slack a -> in_slack b -> in_slack (sm2P256Sub a b).
Proof. intros Ha Hb. apply Sub_value; assumption. Qed.

Lemma ToBig_Mul a b :
  in_slack a -> in_slack b ->
  sm2P256ToBig (sm2P256Mul a b)
  = (sm2P256ToBig a * sm2P256ToBig b) mod sm2P256_P.
Proof. intros Ha Hb. apply Mul_value; assumption. Qed.

Lemma ToBig_Square a :
  in_slack a ->
  sm2P256ToBig (sm2P256Square a)
  = (sm2P256ToBig a * sm2P256ToBig a) mod sm2P256_P.
Proof. intros Ha. apply Square_value; assumption. Qed.

Lemma a_slack : in_slack sm2P256_a.
Proof. apply FromBig_slack. Qed.

Lemma b_slack : in_slack sm2P256_b.
Proof. apply FromBig_slack. Qed.

Lemma ToBig_a : sm2P256ToBig sm2P256_a = sm2P256_A.
Proof. apply ToBig_FromBig. unfold sm2P256_A, sm2P256_P. lia. Qed.

Lemma ToBig_b : sm2P256ToBig sm2P256_b = sm2P256_B.
Proof. apply ToBig_FromBig. unfold sm2P256_B, sm2P256_P. lia. Qed.

(** Proves that a field expression built from operands within slack is
    within slack. *)
Ltac slack :=
  repeat match goal with
    | |- in_slack (sm2P256Mul _ _) => apply Mul_slack
    | |- in_slack (sm2P256Square _) => apply Square_slack
    | |- in_slack (sm2P256Add _ _) => apply Add_slack
    | |- in_slack (sm2P256Sub _ _) => apply Sub_slack
    | |- in_slack (sm2P256FromBig _) => apply FromBig_slack
    | |- in_slack sm2P256_a => exact a_slack
    | |- in_slack sm2P256_b => exact b_slack
    | |- in_slack _ => assumption
    end.

(** Rewrites the canonical value of a field expression into integer
    arithmetic modulo p on the canonical values of its operands. *)
Ltac to_big :=
  repeat match goal with
    | |- context [sm2P256ToBig (sm2P256Mul ?a ?b)] =>
        rewrite (ToBig_Mul a b) by slack
    | |- context [sm2P256ToBig (sm2P256Square ?a)] =>
        rewrite (ToBig_Square a) by slack
    | |- context [sm2P256ToBig (sm2P256Add ?a ?b)] =>
        rewrite (ToBig_Add a b) by slack
    | |- context [sm2P256ToBig (sm2P256Sub ?a ?b)] =>
        rewrite (ToBig_Sub a b) by slack
    end.

Lemma eqP_refl u : eqP u u.
Proof. reflexivity. Qed.

Lemma eqP_trans3 l l' r r' : eqP l l' -> eqP r r' -> l' = r' -> eqP l r.
Proof. unfold eqP. intros -> -> ->. reflexivity. Qed.

Lemma eqP_add u u' v v' : eqP u u' -> eqP v v' -> eqP (u + v) (u' + v').
Proof.
  unfold eqP. intros Hu Hv. pose proof P_pos.
  rewrite (Z.add_mod u), (Z.add_mod u'), Hu, Hv by lia. reflexivity.
Qed.

Lemma eqP_sub u u' v v' : eqP u u' -> eqP v v' -> eqP (u - v) (u' - v').
Proof.
  unfold eqP. intros Hu Hv.
  rewrite (Zminus_mod u), (Zminus_mod u'), Hu, Hv. reflexivity.
Qed.

Lemma eqP_mul u u' v v' : eqP u u' -> eqP v v' -> eqP (u * v) (u' * v').
Proof.
  unfold eqP. intros Hu Hv. pose proof P_pos.
  rewrite (Z.mul_mod u), (Z.mul_mod u'), Hu, Hv by lia. reflexivity.
Qed.

Lemma eqP_mod u u' : eqP u u' -> eqP (u mod sm2P256_P) u'.
Proof.
  unfold eqP. intros <-. apply Z.mod_mod. pose proof P_pos. lia.
Qed.

(** The expression [t] without its reductions modulo p. *)
Ltac strip_mod t :=
  lazymatch t with
  | ?u mod sm2P256_P => strip_mod u
  | ?u + ?v =>
      let u' := strip_mod u in let v' := strip_mod v in constr:(u' + v')
  | ?u - ?v =>
      let u' := strip_mod u in let v' := strip_mod v in constr:(u' - v')
  | ?u * ?v =>
      let u' := strip_mod u in let v' := strip_mod v in constr:(u' * v')
  | _ => t
  end.

Ltac strip_ok :=
  lazymatch goal with
  | |- eqP (_ mod sm2P256_P) _ => apply eqP_mod; strip_ok
  | |- eqP (_ + _) _ => apply eqP_add; strip_ok
  | |- eqP (_ - _) _ => apply eqP_sub; strip_ok
  | |- eqP (_ * _) _ => apply eqP_mul; strip_ok
  | |- eqP _ _ => apply eqP_refl
  end.

(** Proves an equality of two integer expressions reduced modulo p whose
    subterms may be reduced modulo p as well. *)
Ltac mod_ring :=
  lazymatch goal with
  | |- ?l mod sm2P256_P = ?r mod sm2P256_P =>
      let l' := strip_mod l in
      let r' := strip_mod r in
      apply (eqP_trans3 l l' r r'); [strip_ok | strip_ok | ring]
  end.

(** ** [sm2P256PointDouble] *)

Lemma PointDouble_unfold x y z :
  sm2P256PointDouble x y z
  = let x2 := sm2P256Square x in
    let y2 := sm2P256Square y in
    let z4_mul_a := sm2P256Mul (sm2P256Square (sm2P256Square z)) sm2P256_a in
    let s := sm2P256Mul x y2 in
    let lambda :=
      sm2P256Add (sm2P256Add (sm2P256Add x2 x2) x2) z4_mul_a in
    let lambda2 := sm2P256Square lambda in
    let y4_mul_8 := sm2P256Square (sm2P256Add y2 y2) in
    let y4_mul_8 := sm2P256Add y4_mul_8 y4_mul_8 in
    let s := sm2P256Add (sm2P256Add s s) (sm2P256Add s s) in
    let x3 := sm2P256Sub (sm2P256Sub lambda2 s) s in
    let t := sm2P256Mul (sm2P256Sub s x3) lambda in
    (x3, sm2P256Sub t y4_mul_8,
     sm2P256Add (sm2P256Mul y z) (sm2P256Mul y z)).
Proof.
  unfold sm2P256PointDouble.
  repeat (first [rewrite Square2Way_eq | rewrite Mul2Way_eq];
          cbv beta iota zeta).
  reflexivity.
Qed.

Lemma PointDouble_slack x y z :
  in_slack x -> in_slack y -> in_slack z ->
  in_slack (fst (fst (sm2P256PointDouble x y z))) /\
  in_slack (snd (fst (sm2P256PointDouble x y z))) /\
  in_slack (snd (sm2P256PointDouble x y z)).
Proof.
  intros Hx Hy Hz. rewrite PointDouble_unfold. cbv zeta. cbn [fst snd].
  split; [|split]; slack.
Qed.

(** C5: for every Jacobian point (x, y, z) in Montgomery form with limbs
    within slack, [sm2P256PointDouble] returns, as canonical values mod p,
    X3 = lambda^2 - 8 x y^2, Y3 = lambda (4 x y^2 - X3) - 8 y^4 and
    Z3 = 2 y z, where lambda = 3 x^2 + a z^4. *)
Theorem PointDouble_formulas x y z :
  in_slack x -> in_slack y -> in_slack z ->
  let X := sm2P256ToBig x in
  let Y := sm2P256ToBig y in
  let Z := sm2P256ToBig z in
  let lambda := 3 * X ^ 2 + sm2P256_A * Z ^ 4 in
  let X3 := sm2P256ToBig (fst (fst (sm2P256PointDouble x y z))) in
  let Y3 := sm2P256ToBig (snd (fst (sm2P256PointDouble x y z))) in
  let Z3 := sm2P256ToBig (snd (sm2P256PointDouble x y z)) in
  X3 = (lambda ^ 2 - 8 * X * Y ^ 2) mod sm2P256_P /\
  Y3 = (lambda * (4 * X * Y ^ 2 - X3) - 8 * Y ^ 4) mod sm2P256_P /\
  Z3 = (2 * Y * Z) mod sm2P256_P.
Proof.
  intros Hx Hy Hz. cbv zeta. rewrite PointDouble_unfold. cbv zeta.
  cbn [fst snd]. to_big. rewrite ToBig_a.
  generalize (sm2P256ToBig x) (sm2P256ToBig y) (sm2P256ToBig z) sm2P256_A.
  intros X Y Z A. split; [|split]; mod_ring.
Qed.

Lemma PointDouble_formulas_witness :
  sm2P256ToBig (snd (sm2P256PointDouble sm2P256_gx sm2P256_gy sm2P256_gx))
  = (2 * sm2P256ToBig sm2P256_gy * sm2P256ToBig sm2P256_gx) mod sm2P256_P.
Proof.
  refine (proj2 (proj2
    (PointDouble_formulas sm2P256_gx sm2P256_gy sm2P256_gx _ _ _)));
    vm_compute; repeat split; discriminate.
Defined.

(** ** [IsOnCurve] *)

Lemma IsOnCurve_unfold X Y :
  IsOnCurve X Y
  = (sm2P256ToBig
       (sm2P256Add
          (sm2P256Add
             (sm2P256Mul (sm2P256Square (sm2P256FromBig X)) (sm2P256FromBig X))
             (sm2P256Mul sm2P256_a (sm2P256FromBig X)))
          sm2P256_b)
     =? sm2P256ToBig (sm2P256Square (sm2P256FromBig Y))).
Proof.
  unfold IsOnCurve. cbv zeta.
  rewrite Square2Way_eq. cbv beta iota.
  rewrite Mul2Way_eq. reflexivity.
Qed.

Lemma IsOnCurve_equation X Y :
  0 <= X < sm2P256_P -> 0 <= Y < sm2P256_P ->
  IsOnCurve X Y = true <->
  (Y ^ 2) mod sm2P256_P
  = (X ^ 3 + sm2P256_A * X + sm2P256_B) mod sm2P256_P.
Proof.
  intros HX HY. rewrite IsOnCurve_unfold, Z.eqb_eq. to_big.
  rewrite ToBig_a, ToBig_b, !ToBig_FromBig by assumption.
  generalize sm2P256_A sm2P256_B. intros A B.
  assert (E3 : ((((X * X) mod sm2P256_P * X) mod sm2P256_P
                 + (A * X) mod sm2P256_P) mod sm2P256_P + B) mod sm2P256_P
               = (X ^ 3 + A * X + B) mod sm2P256_P) by mod_ring.
  rewrite E3. replace (Y * Y) with (Y ^ 2) by ring.
  split; intros H; symmetry; exact H.
Qed.

(** C9: for all canonical integers X and Y, [IsOnCurve] returns true if and
    only if Y^2 = X^3 + a X + b modulo p; it returns true for (Gx, Gy) and
    false once either coordinate is moved by 1. *)
Theorem IsOnCurve_correct :
  (forall X Y,
     0 <= X < sm2P256_P -> 0 <= Y < sm2P256_P ->
     IsOnCurve X Y = true <->
     (Y ^ 2) mod sm2P256_P
     = (X ^ 3 + sm2P256_A * X + sm2P256_B) mod sm2P256_P) /\
  IsOnCurve sm2P256_Gx sm2P256_Gy = true /\
  IsOnCurve (sm2P256_Gx + 1) sm2P256_Gy = false /\
  IsOnCurve sm2P256_Gx (sm2P256_Gy + 1) = false.
Proof.
  split; [exact IsOnCurve_equation|].
  split; [|split]; vm_compute; reflexivity.
Qed.

Lemma IsOnCurve_correct_witness :
  IsOnCurve sm2P256_Gx sm2P256_Gy = true <->
  (sm2P256_Gy ^ 2) mod sm2P256_P
  = (sm2P256_Gx ^ 3 + sm2P256_A * sm2P256_Gx + sm2P256_B) mod sm2P256_P.
Proof.
  apply (proj1 IsOnCurve_correct sm2P256_Gx sm2P256_Gy);
    unfold sm2P256_Gx, sm2P256_Gy, sm2P256_P; lia.
Defined.

(** ** [sm2P256PointAdd]: the point at infinity *)

Lemma fe_of_to_list a : fe_of_list (fe_to_list a) = a.
Proof. destruct a. reflexivity. Qed.

Lemma is_zero_spec z : is_zero z = true <-> z = fe_zero.
Proof.
  destruct z as [z0 z1 z2 z3 z4 z5 z6 z7 z8]. unfold is_zero, fe_zero.
  cbn [fe_to_list forallb fe0 fe1 fe2 fe3 fe4 fe5 fe6 fe7 fe8].
  rewrite !andb_true_iff, !Z.eqb_eq. split.
  - intros (-> & -> & -> & -> & -> & -> & -> & -> & -> & _). reflexivity.
  - intros E. injection E as -> -> -> -> -> -> -> -> ->. tauto.
Qed.

Lemma is_p_spec z : is_p z = true <-> z = fe_of_list pv.
Proof.
  destruct z as [z0 z1 z2 z3 z4 z5 z6 z7 z8]. unfold is_p, pv, fe_of_list.
  cbn [fe_to_list combine forallb fst snd nth
       fe0 fe1 fe2 fe3 fe4 fe5 fe6 fe7 fe8].
  rewrite !andb_true_iff, !Z.eqb_eq. split.
  - intros (-> & -> & -> & -> & -> & -> & -> & -> & -> & _). reflexivity.
  - intros E. injection E as -> -> -> -> -> -> -> -> ->. tauto.
Qed.

(** The constant [pv] stands for twice the prime. *)
Lemma pv_value : sm2P256ToBigPlain (fe_of_list pv) = 2 * sm2P256_P.
Proof. reflexivity. Qed.

Lemma infinity_test z :
  is_zero z || is_p z = true <-> z = fe_zero \/ z = fe_of_list pv.
Proof. rewrite orb_true_iff, is_zero_spec, is_p_spec. reflexivity. Qed.

(** The second rule of the claim as worded, without the proviso on z1:
    with both z1 and z2 all-zero the result is the second point. *)
Lemma PointAdd_second_rule_unguarded :
  ~ (forall x1 y1 z1 x2 y2 z2,
       z2 = fe_zero \/ z2 = fe_of_list pv ->
       sm2P256PointAdd x1 y1 z1 x2 y2 z2 = (x1, y1, z1)).
Proof.
  intros H.
  specialize (H fe_zero fe_zero fe_zero (FE 1 0 0 0 0 0 0 0 0) fe_zero
                fe_zero (or_introl eq_refl)).
  discriminate H.
Qed.

(** C6: in [sm2P256PointAdd], if z1 is all-zero or equal to [pv], the
    result is a copy of (x2, y2, z2); if z1 is neither and z2 is all-zero
    or equal to [pv], the result is a copy of (x1, y1, z1). *)
Theorem PointAdd_infinity x1 y1 z1 x2 y2 z2 :
  (z1 = fe_zero \/ z1 = fe_of_list pv ->
   sm2P256PointAdd x1 y1 z1 x2 y2 z2 = (x2, y2, z2)) /\
  (z1 <> fe_zero -> z1 <> fe_of_list pv ->
   z2 = fe_zero \/ z2 = fe_of_list pv ->
   sm2P256PointAdd x1 y1 z1 x2 y2 z2 = (x1, y1, z1)).
Proof.
  unfold sm2P256PointAdd, sm2P256Dup. cbv zeta. split.
  - intros H. apply infinity_test in H. rewrite H. reflexivity.
  - intros N1 N2 H.
    destruct (is_zero z1 || is_p z1) eqn:E1.
    + apply infinity_test in E1. tauto.
    + apply infinity_test in H. rewrite H. reflexivity.
Qed.

Lemma PointAdd_infinity_witness :
  sm2P256PointAdd sm2P256_gx sm2P256_gy sm2P256Factor_1
    sm2P256_gy sm2P256_gx (fe_of_list pv)
  = (sm2P256_gx, sm2P256_gy, sm2P256Factor_1).
Proof.
  apply (proj2 (PointAdd_infinity sm2P256_gx sm2P256_gy sm2P256Factor_1
                  sm2P256_gy sm2P256_gx (fe_of_list pv))).
  - vm_compute. discriminate.
  - vm_compute. discriminate.
  - right. reflexivity.
Defined.

(** ** Table selection *)

Lemma index_cases i :
  0 <= i < 16 ->
  i = 0 \/ i = 1 \/ i = 2 \/ i = 3 \/ i = 4 \/ i = 5 \/ i = 6 \/ i = 7 \/
  i = 8 \/ i = 9 \/ i = 10 \/ i = 11 \/ i = 12 \/ i = 13 \/ i = 14 \/ i = 15.
Proof. lia. Qed.

Lemma SelectAffinePoint_entry table index :
  0 <= index < 16 ->
  reads (sm2P256SelectAffinePoint table index)
  = flat_map (fun j => [18 * index + j; 18 * index + 9 + j]) range9 /\
  value (sm2P256SelectAffinePoint table index)
  = (fe_of_list (map (fun j => cell table (18 * index + j)) range9),
     fe_of_list (map (fun j => cell table (18 * index + 9 + j)) range9)).
Proof.
  intros H. apply index_cases in H.
  repeat (destruct H as [H | H]; [subst index; split; reflexivity|]).
  subst index; split; reflexivity.
Qed.

Lemma SelectJacobianPoint_entry table index :
  reads (sm2P256SelectJacobianPoint table index)
  = flat_map (fun j => [27 * index + 9 * 0 + j; 27 * index + 9 * 1 + j;
                        27 * index + 9 * 2 + j]) range9 /\
  value (sm2P256SelectJacobianPoint table index) = jacobianEntry table index.
Proof.
  unfold sm2P256SelectJacobianPoint, range9, reads, value.
  cbn [selectJacobianLoop]. unfold readJacobianCell.
  destruct (jacobianEntry table index) as [[x y] z].
  destruct x, y, z. split; reflexivity.
Qed.

(** The reads of a selection differ from one index to another: for the
    indices 0 and 1 the affine selection reads the cells 0 to 17 and 18 to
    35 of the table. *)
Lemma select_reads_depend_on_index :
  ~ (forall index index',
       0 <= index < 16 -> 0 <= index' < 16 ->
       reads (sm2P256SelectAffinePoint sm2P256Precomputed index)
       = reads (sm2P256SelectAffinePoint sm2P256Precomputed index')).
Proof.
  intros H. specialize (H 0 1 ltac:(lia) ltac:(lia)).
  vm_compute in H. discriminate H.
Qed.

(** C3: in scalar multiplication, every table selection
    ([sm2P256SelectAffinePoint] and [sm2P256SelectJacobianPoint]) is a
    direct indexed read: it reads the cells of the index'th entry of the
    table, 18 words or 27, and no other cell, and returns that entry. *)
Theorem select_reads_indexed_entry table jtable index :
  0 <= index < 16 ->
  (reads (sm2P256SelectAffinePoint table index)
   = flat_map (fun j => [18 * index + j; 18 * index + 9 + j]) range9 /\
   value (sm2P256SelectAffinePoint table index)
   = (fe_of_list (map (fun j => cell table (18 * index + j)) range9),
      fe_of_list (map (fun j => cell table (18 * index + 9 + j)) range9))) /\
  (reads (sm2P256SelectJacobianPoint jtable index)
   = flat_map (fun j => [27 * index + 9 * 0 + j; 27 * index + 9 * 1 + j;
                         27 * index + 9 * 2 + j]) range9 /\
   value (sm2P256SelectJacobianPoint jtable index)
   = jacobianEntry jtable index).
Proof.
  intros H. split.
  - apply SelectAffinePoint_entry. exact H.
  - apply SelectJacobianPoint_entry.
Qed.

Lemma select_reads_indexed_entry_witness :
  reads (sm2P256SelectAffinePoint sm2P256Precomputed 3)
  = flat_map (fun j => [18 * 3 + j; 18 * 3 + 9 + j]) range9.
Proof.
  apply (proj1 (proj1 (select_reads_indexed_entry sm2P256Precomputed [] 3
                         ltac:(lia)))).
Defined.

(** ** [sm2P256GetScalar] *)

Lemma setEntry_length {A : Type} (l : list A) n v :
  length (setEntry l n v) = length l.
Proof.
  revert n. induction l as [|a l IH]; intros n; [reflexivity|].
  destruct n; cbn [setEntry length]; [reflexivity|].
  rewrite IH. reflexivity.
Qed.

Lemma bytesLittleEndian_length k :
  forall fuel n,
    0 <= n < 256 ^ Z.of_nat k ->
    (length (bytesLittleEndian fuel n) <= k)%nat.
Proof.
  induction k as [|k IH]; intros fuel n Hn.
  - assert (n = 0) by (change (256 ^ Z.of_nat 0) with 1 in Hn; lia).
    subst n. destruct fuel; cbn; lia.
  - destruct fuel as [|fuel]; cbn [bytesLittleEndian]; [cbn; lia|].
    destruct (n =? 0); [cbn; lia|]. cbn [length].
    apply le_n_S. apply IH.
    rewrite Nat2Z.inj_succ, Z.pow_succ_r in Hn by lia.
    split; [apply Z.div_pos; lia | apply Z.div_lt_upper_bound; lia].
Qed.

Lemma Bytes_length n :
  0 <= n < sm2P256_N -> (length (Bytes n) <= 32)%nat.
Proof.
  intros Hn. unfold Bytes. rewrite length_rev.
  apply bytesLittleEndian_length.
  rewrite Z.abs_eq by lia.
  assert (sm2P256_N < 256 ^ Z.of_nat 32) by reflexivity. lia.
Qed.

(** With the index running up to the length, every write of the loop
    falls within the 32 bytes. *)
Lemma getScalarLoop_in_bounds vs :
  forall b len i,
    length b = 32%nat -> 0 <= i -> len <= 32 ->
    i + Z.of_nat (length vs) = len ->
    exists b', getScalarLoop b len i vs = Some b' /\ length b' = 32%nat.
Proof.
  induction vs as [|v vs IH]; intros b len i Hb Hi Hlen E.
  - exists b. split; [reflexivity | exact Hb].
  - cbn [getScalarLoop]. cbn [length] in E. unfold store.
    assert (R : (0 <=? len - (1 + i)) && (len - (1 + i) <? Z.of_nat (length b))
                = true).
    { rewrite Hb. apply andb_true_iff. split; [apply Z.leb_le | apply Z.ltb_lt];
        lia. }
    rewrite R. apply IH; [rewrite setEntry_length; exact Hb | lia | lia | lia].
Qed.

Lemma GetScalar_total k :
  (length k <= 32)%nat ->
  exists b, sm2P256GetScalar scalarReversed0 k = Some b /\ length b = 32%nat.
Proof.
  intros Hk. unfold sm2P256GetScalar. cbv zeta.
  assert (HN : 0 < sm2P256_N) by reflexivity.
  destruct (sm2P256_N <=? SetBytes k).
  - pose proof (Bytes_length (SetBytes k mod sm2P256_N)
                  (Z.mod_pos_bound _ _ HN)).
    apply getScalarLoop_in_bounds; [reflexivity | lia | lia | lia].
  - apply getScalarLoop_in_bounds; [reflexivity | lia | lia | lia].
Qed.

(** C10: for every scalar byte string k of length at most 32,
    [sm2P256GetScalar] writes only inside its 32-byte buffer, whether or not
    k is reduced modulo n: no write is out of range, and [ScalarMult] and
    [ScalarBaseMult] return a point. *)
Theorem GetScalar_writes_in_bounds k :
  (length k <= 32)%nat ->
  (exists b, sm2P256GetScalar scalarReversed0 k = Some b /\
             length b = 32%nat) /\
  (forall x1 y1, ScalarMult x1 y1 k <> None) /\
  ScalarBaseMult k <> None.
Proof.
  intros Hk. destruct (GetScalar_total k Hk) as (b & Hb & Hl).
  split; [exists b; split; assumption|].
  unfold ScalarMult, ScalarBaseMult. cbv zeta. rewrite Hb. split.
  - intros x1 y1. destruct (sm2P256ScalarMult _ _ _ _ _ _) as [[X Y] Z].
    discriminate.
  - destruct (sm2P256ScalarBaseMult b) as [[X Y] Z]. discriminate.
Qed.

Lemma GetScalar_writes_in_bounds_witness :
  exists b, sm2P256GetScalar scalarReversed0 [1; 2; 3] = Some b /\
            length b = 32%nat.
Proof.
  apply (proj1 (GetScalar_writes_in_bounds [1; 2; 3] ltac:(cbn; lia))).
Defined.
